(** * Golem C examples and test fixtures: a shallow embedding

    The development follows the five C/C++ sources:

    - [examples/c/c-default/main.c]                      (module [CDefault])
    - [examples/c/c-app-component/.../component.cpp]     (module [CAppComponent])
    - [examples/c/c-example-http/main.c]                 (module [CExampleHttp])
    - [test-components/large-dynamic-memory/main.c]      (module [LargeDynamicMemory])
    - [test-components/c-1/main.c]                       (module [TestComponentC1])

    Machine integers are [Z] with the wrap-around written out; the
    process-wide counter [total] is threaded explicitly. *)

From Stdlib Require Import ZArith List String Ascii Bool Lia.
From Stdlib Require Import Permutation Sorted DecimalString.
From Stdlib Require Nnat Decimal DecimalFacts DecimalPos DecimalN.
Import ListNotations.

Open Scope Z_scope.

(** ** Unsigned 64-bit arithmetic *)

Definition UINT64_MODULUS : Z := 2 ^ 64.

(** [uint64_t] addition: the mathematical sum reduced modulo [2^64]. *)
Definition add_u64 (a b : Z) : Z := (a + b) mod UINT64_MODULUS.

Definition is_u64 (z : Z) : Prop := 0 <= z < UINT64_MODULUS.

(** Mathematical sum of a list of arguments. *)
Definition sum (vs : list Z) : Z := fold_right Z.add 0 vs.

(** ** examples/c/c-default/main.c *)

Module CDefault.

(** [static uint64_t total = 0;] *)
Record state : Type := { total : Z }.

Definition fresh : state := {| total := 0 |}.

(** [void exports_pack_name_api_add(uint64_t value) { total += value; }] *)
Definition exports_pack_name_api_add (value : Z) (s : state) : state :=
  {| total := add_u64 (total s) value |}.

(** [uint64_t exports_pack_name_api_get() { return total; }] *)
Definition exports_pack_name_api_get (s : state) : Z * state :=
  (total s, s).

(** [add(v_1); ...; add(v_N)], first call first. *)
Definition adds (vs : list Z) (s : state) : state :=
  fold_left (fun st v => exports_pack_name_api_add v st) vs s.

End CDefault.

(** ** examples/c/c-app-component/components-cpp/component-name/src/component.cpp *)

Module CAppComponent.

(** [static uint64_t total = 0;] *)
Record state : Type := { total : Z }.

Definition fresh : state := {| total := 0 |}.

Definition exports_pack_name_exports_component_name_api_add
    (value : Z) (s : state) : state :=
  {| total := add_u64 (total s) value |}.

Definition exports_component_name_exports_component_name_api_get
    (s : state) : Z * state :=
  (total s, s).

Definition adds (vs : list Z) (s : state) : state :=
  fold_left
    (fun st v => exports_pack_name_exports_component_name_api_add v st) vs s.

End CAppComponent.

(** ** examples/c/c-example-http/main.c *)

Module CExampleHttp.

Open Scope string_scope.

(** *** The imported WASI HTTP binding, as [send] uses it

    The generated header is not part of the sources; the imports are
    kept symbolic and the values they hand back are supplied by an
    environment [env].  The [log] lines written to [stderr] are left
    out, and the heap allocations of [send] ([malloc], [realloc]) are
    taken to succeed. *)

(** The [own] handles held in local variables of [send], named as the
    variables are. *)
Inductive handle : Type :=
| headers | request | out_body | out_body_stream | request_options
| future_response | pollable | response | incoming_body
| incoming_body_stream.

(** Constants of the binding passed as arguments. *)
Inductive method_tag : Type := WASI_HTTP_TYPES_METHOD_POST.
Inductive scheme_tag : Type := WASI_HTTP_TYPES_SCHEME_HTTPS.

Inductive import : Type :=
| wasi_http_types_static_fields_from_list (entries : list (string * string))
| wasi_http_types_constructor_outgoing_request
| wasi_http_types_method_outgoing_request_set_method (method : method_tag)
| wasi_http_types_method_outgoing_request_set_path_with_query (path : string)
| wasi_http_types_method_outgoing_request_set_scheme (scheme : scheme_tag)
| wasi_http_types_method_outgoing_request_set_authority (authority : string)
| wasi_http_types_method_outgoing_request_body
| wasi_http_types_method_outgoing_body_write
| wasi_io_streams_method_output_stream_blocking_write_and_flush
    (body_data : string)
| wasi_http_types_static_outgoing_body_finish
| wasi_http_types_constructor_request_options
| wasi_http_types_method_request_options_set_connect_timeout (timeout : Z)
| wasi_http_types_method_request_options_set_first_byte_timeout (timeout : Z)
| wasi_http_types_method_request_options_set_between_bytes_timeout
    (timeout : Z)
| wasi_http_outgoing_handler_handle
| wasi_http_types_method_future_incoming_response_get
| wasi_http_types_method_future_incoming_response_subscribe
| wasi_io_poll_poll
| wasi_http_types_method_incoming_response_status
| wasi_http_types_method_incoming_response_consume
| wasi_http_types_method_incoming_body_stream
| wasi_io_streams_method_input_stream_blocking_read (len : Z)
| wasi_http_types_outgoing_request_drop_own
| wasi_http_types_outgoing_body_drop_own
| wasi_io_streams_output_stream_drop_own
| wasi_http_types_request_options_drop_own
| wasi_http_types_future_incoming_response_drop_own
| wasi_io_poll_pollable_drop_own
| wasi_http_types_incoming_response_drop_own
| wasi_http_types_incoming_body_drop_own
| wasi_io_streams_input_stream_drop_own.

(** [wasi_http_types_result_result_own_incoming_response_error_code_void_t]:
    the fields [send] inspects. *)
Record future_result : Type := {
  is_err : bool;          (* res.is_err *)
  ok_is_err : bool;       (* res.val.ok.is_err *)
  err_tag : Z             (* res.val.ok.val.err.tag *)
}.

(** What one [blocking_read] hands back: [true] with a chunk, or
    [false] with [stream_err.tag]. *)
Inductive read_result : Type :=
| read_chunk (chunk : string)
| read_error (tag : Z).

(** What an import handed back to [send]. *)
Inductive answer : Type :=
| returned_void
| returned_bool (b : bool)
| returned_future (r : option future_result)
| returned_read (r : read_result)
| returned_status (status : Z).

Definition event : Type := (import * answer)%type.

(** The environment: the return value of each import at its single
    call site, and the successive answers of the two imports called
    in loops. *)
Record env : Type := {
  fields_from_list_ok : bool;
  set_method_ok : bool;
  set_path_with_query_ok : bool;
  set_scheme_ok : bool;
  set_authority_ok : bool;
  outgoing_request_body_ok : bool;
  outgoing_body_write_ok : bool;
  blocking_write_and_flush_ok : bool;
  outgoing_body_finish_ok : bool;
  set_connect_timeout_ok : bool;
  set_first_byte_timeout_ok : bool;
  set_between_bytes_timeout_ok : bool;
  handle_ok : bool;
  future_answers : list (option future_result);
  status_code : Z;
  consume_ok : bool;
  incoming_body_stream_ok : bool;
  read_answers : list read_result
}.

(** *** Component state and the execution monad *)

(** [total] is the static counter, [ret] the caller's output
    parameter [*ret] (unset on entry), [trace] the import calls made so
    far, oldest first. *)
Record state : Type := {
  total : Z;
  ret : option string;
  trace : list event
}.

Definition fresh : state := {| total := 0; ret := None; trace := [] |}.

(** A computation either goes on with a value, has executed a C
    [return;], or is still inside a loop when the scripted answers of
    the environment are used up. *)
Inductive result (A : Type) : Type :=
| Next (a : A) (s : state)
| Returned (s : state)
| Pending (s : state).
Arguments Next {A} a s.
Arguments Returned {A} s.
Arguments Pending {A} s.

Definition M (A : Type) : Type := state -> result A.

Definition pure {A : Type} (a : A) : M A := fun s => Next a s.

Definition bind {A B : Type} (m : M A) (k : A -> M B) : M B :=
  fun s =>
    match m s with
    | Next a s' => k a s'
    | Returned s' => Returned s'
    | Pending s' => Pending s'
    end.

Notation "x <- c1 ;; c2" := (bind c1 (fun x => c2))
  (at level 100, c1 at next level, c2 at level 200, right associativity).
Notation "c1 ;; c2" := (bind c1 (fun _ => c2))
  (at level 100, c2 at level 200, right associativity).

(** C [return;] *)
Definition return_ {A : Type} : M A := fun s => Returned s.

Definition pending {A : Type} : M A := fun s => Pending s.

Definition get_total : M Z := fun s => Next (total s) s.

Definition record (e : event) : M unit :=
  fun s =>
    Next tt {| total := total s; ret := ret s; trace := trace s ++ [e] |}.

(** Calling an import: the call is recorded with what it handed back. *)
Definition call_void (f : import) : M unit := record (f, returned_void).

Definition call_bool (f : import) (b : bool) : M bool :=
  record (f, returned_bool b) ;; pure b.

(** [set_string(ret, str)]: [ret->ptr = str; ret->len = strlen(str)]. *)
Definition set_string (str : string) : M unit :=
  fun s => Next tt {| total := total s; ret := Some str; trace := trace s |}.

(** [ret->ptr = full_body; ret->len = len;] *)
Definition set_ret (full_body : string) : M unit :=
  fun s =>
    Next tt {| total := total s; ret := Some full_body; trace := trace s |}.

(** *** The exports *)

(** [void exports_pack_name_api_add(uint64_t value) { total += value; }] *)
Definition exports_pack_name_api_add (value : Z) : M unit :=
  fun s =>
    Next tt {| total := add_u64 (total s) value;
               ret := ret s; trace := trace s |}.

(** [uint64_t exports_pack_name_api_get() { return total; }] *)
Definition exports_pack_name_api_get : M Z := get_total.

(** [%llu] *)
Definition format_llu (z : Z) : string :=
  NilZero.string_of_uint (N.to_uint (Z.to_N z)).

Definition double_quote : string := String "034" EmptyString.

(** [sprintf(body_data.ptr, "{ \"count\": %llu }", total)] *)
Definition sprintf_count (t : Z) : string :=
  "{ " ++ double_quote ++ "count" ++ double_quote ++ ": "
    ++ format_llu t ++ " }".

(** [while (!got_response) { ... }], lines 205-238.  One answer of the
    environment is consumed per iteration. *)
Fixpoint await_response (answers : list (option future_result)) : M unit :=
  match answers with
  | [] => pending
  | a :: rest =>
      record (wasi_http_types_method_future_incoming_response_get,
              returned_future a) ;;
      match a with
      | Some res =>
          if negb (is_err res) && negb (ok_is_err res) then
            (* response = res.val.ok.val.ok; got_response = true; *)
            pure tt
          else if negb (is_err res) && ok_is_err res then
            set_string "Returned with error code" ;;
            call_void wasi_http_types_future_incoming_response_drop_own ;;
            return_
          else
            set_string "Returned with error" ;;
            call_void wasi_http_types_future_incoming_response_drop_own ;;
            return_
      | None =>
          call_void wasi_http_types_method_future_incoming_response_subscribe ;;
          call_void wasi_io_poll_poll ;;
          call_void wasi_io_poll_pollable_drop_own ;;
          await_response rest
      end
  end.

Section Binding.

(** The tag constant of the generated header. *)
Variable WASI_IO_STREAMS_STREAM_ERROR_CLOSED : Z.

(** [while (!eof) { ... }], lines 267-285.  [full_body] is the heap
    buffer, [len] its length; [realloc] followed by [memcpy] at
    offset [len - chunk.len] appends the chunk. *)
Fixpoint read_body (answers : list read_result) (full_body : string)
  : M string :=
  match answers with
  | [] => pending
  | a :: rest =>
      record (wasi_io_streams_method_input_stream_blocking_read 1024,
              returned_read a) ;;
      match a with
      | read_chunk chunk => read_body rest (full_body ++ chunk)
      | read_error tag =>
          if Z.eqb tag WASI_IO_STREAMS_STREAM_ERROR_CLOSED then
            (* eof = true; *)
            pure full_body
          else
            set_string "Failed to read from body stream" ;;
            call_void wasi_io_streams_input_stream_drop_own ;;
            call_void wasi_http_types_incoming_body_drop_own ;;
            call_void wasi_http_types_incoming_response_drop_own ;;
            return_
      end
  end.

(** [void exports_pack_name_api_send(component_name_string_t *ret)] *)
Definition exports_pack_name_api_send (e : env) : M unit :=
  ok <- call_bool
          (wasi_http_types_static_fields_from_list
             [("Content-Type", "application/json");
              ("Accept", "application/json")])
          (fields_from_list_ok e) ;;
  if negb ok then
    set_string "Failed to create header list" ;;
    return_
  else
  call_void wasi_http_types_constructor_outgoing_request ;;
  ok <- call_bool
          (wasi_http_types_method_outgoing_request_set_method
             WASI_HTTP_TYPES_METHOD_POST)
          (set_method_ok e) ;;
  if negb ok then
    set_string "Failed to set method" ;;
    call_void wasi_http_types_outgoing_request_drop_own ;;
    return_
  else
  ok <- call_bool
          (wasi_http_types_method_outgoing_request_set_path_with_query
             "/post")
          (set_path_with_query_ok e) ;;
  if negb ok then
    set_string "Failed to set path" ;;
    call_void wasi_http_types_outgoing_request_drop_own ;;
    return_
  else
  ok <- call_bool
          (wasi_http_types_method_outgoing_request_set_scheme
             WASI_HTTP_TYPES_SCHEME_HTTPS)
          (set_scheme_ok e) ;;
  if negb ok then
    set_string "Failed to set scheme" ;;
    call_void wasi_http_types_outgoing_request_drop_own ;;
    return_
  else
  ok <- call_bool
          (wasi_http_types_method_outgoing_request_set_authority
             "httpbin.org")
          (set_authority_ok e) ;;
  if negb ok then
    set_string "Failed to set authority" ;;
    call_void wasi_http_types_outgoing_request_drop_own ;;
    return_
  else
  ok <- call_bool wasi_http_types_method_outgoing_request_body
          (outgoing_request_body_ok e) ;;
  if negb ok then
    set_string "Failed to get outgoing body" ;;
    call_void wasi_http_types_outgoing_request_drop_own ;;
    return_
  else
  ok <- call_bool wasi_http_types_method_outgoing_body_write
          (outgoing_body_write_ok e) ;;
  if negb ok then
    set_string "Failed to get outgoing body stream" ;;
    call_void wasi_http_types_outgoing_body_drop_own ;;
    call_void wasi_http_types_outgoing_request_drop_own ;;
    return_
  else
  t <- get_total ;;
  ok <- call_bool
          (wasi_io_streams_method_output_stream_blocking_write_and_flush
             (sprintf_count t))
          (blocking_write_and_flush_ok e) ;;
  if negb ok then
    set_string "Failed to write body" ;;
    call_void wasi_io_streams_output_stream_drop_own ;;
    call_void wasi_http_types_outgoing_body_drop_own ;;
    call_void wasi_http_types_outgoing_request_drop_own ;;
    return_
  else
  call_void wasi_io_streams_output_stream_drop_own ;;
  ok <- call_bool wasi_http_types_static_outgoing_body_finish
          (outgoing_body_finish_ok e) ;;
  if negb ok then
    set_string "Failed to finish body" ;;
    call_void wasi_http_types_outgoing_request_drop_own ;;
    return_
  else
  call_void wasi_http_types_constructor_request_options ;;
  let timeout := 5000000000 in
  ok <- call_bool
          (wasi_http_types_method_request_options_set_connect_timeout
             timeout)
          (set_connect_timeout_ok e) ;;
  if negb ok then
    set_string "Failed to set connect timeout" ;;
    call_void wasi_http_types_request_options_drop_own ;;
    call_void wasi_http_types_outgoing_request_drop_own ;;
    return_
  else
  ok <- call_bool
          (wasi_http_types_method_request_options_set_first_byte_timeout
             timeout)
          (set_first_byte_timeout_ok e) ;;
  if negb ok then
    set_string "Failed to set first byte timeout" ;;
    call_void wasi_http_types_request_options_drop_own ;;
    call_void wasi_http_types_outgoing_request_drop_own ;;
    return_
  else
  ok <- call_bool
          (wasi_http_types_method_request_options_set_between_bytes_timeout
             timeout)
          (set_between_bytes_timeout_ok e) ;;
  if negb ok then
    set_string "Failed to set between-bytes timeout" ;;
    call_void wasi_http_types_request_options_drop_own ;;
    call_void wasi_http_types_outgoing_request_drop_own ;;
    return_
  else
  ok <- call_bool wasi_http_outgoing_handler_handle (handle_ok e) ;;
  if negb ok then
    set_string "Failed to send request" ;;
    return_
  else
  await_response (future_answers e) ;;
  record (wasi_http_types_method_incoming_response_status,
          returned_status (status_code e)) ;;
  ok <- call_bool wasi_http_types_method_incoming_response_consume
          (consume_ok e) ;;
  if negb ok then
    set_string "Failed to consume response" ;;
    call_void wasi_http_types_incoming_response_drop_own ;;
    return_
  else
  ok <- call_bool wasi_http_types_method_incoming_body_stream
          (incoming_body_stream_ok e) ;;
  if negb ok then
    set_string "Failed to get body stream" ;;
    call_void wasi_http_types_incoming_body_drop_own ;;
    call_void wasi_http_types_incoming_response_drop_own ;;
    return_
  else
  full_body <- read_body (read_answers e) "" ;;
  call_void wasi_io_streams_input_stream_drop_own ;;
  call_void wasi_http_types_incoming_body_drop_own ;;
  call_void wasi_http_types_incoming_response_drop_own ;;
  set_ret full_body.

End Binding.

(** The state in which an export hands control back to its caller:
    after a [return;] or at the end of the body; [None] while the
    export is still looping. *)
Definition finish {A : Type} (r : result A) : option state :=
  match r with
  | Next _ s => Some s
  | Returned s => Some s
  | Pending _ => None
  end.

(** *** Ownership of handles

    An [own] handle comes to [send] as the result of a successful
    import and leaves it when passed as an [own] argument (every
    argument not wrapped in a [..._borrow_...] conversion) or to a
    [..._drop_own].  These are the handles [send] keeps in its local
    variables.  The error a failed stream operation may hand over
    inside [stream_err] (its payload when the tag is not closed) is not
    among them: the model does not follow it. *)

Definition got_response (r : future_result) : bool :=
  negb (is_err r) && negb (ok_is_err r).

Definition acquires (e : event) : list handle :=
  match e with
  | (wasi_http_types_static_fields_from_list _, returned_bool true) =>
      [headers]
  | (wasi_http_types_constructor_outgoing_request, _) => [request]
  | (wasi_http_types_method_outgoing_request_body, returned_bool true) =>
      [out_body]
  | (wasi_http_types_method_outgoing_body_write, returned_bool true) =>
      [out_body_stream]
  | (wasi_http_types_constructor_request_options, _) => [request_options]
  | (wasi_http_outgoing_handler_handle, returned_bool true) =>
      [future_response]
  | (wasi_http_types_method_future_incoming_response_subscribe, _) =>
      [pollable]
  | (wasi_http_types_method_future_incoming_response_get,
     returned_future (Some r)) =>
      if got_response r then [response] else []
  | (wasi_http_types_method_incoming_response_consume, returned_bool true) =>
      [incoming_body]
  | (wasi_http_types_method_incoming_body_stream, returned_bool true) =>
      [incoming_body_stream]
  | _ => []
  end.

Definition releases (e : event) : list handle :=
  match fst e with
  | wasi_http_types_constructor_outgoing_request => [headers]
  | wasi_http_types_static_outgoing_body_finish => [out_body]
  | wasi_http_outgoing_handler_handle => [request_options; request]
  | wasi_http_types_outgoing_request_drop_own => [request]
  | wasi_http_types_outgoing_body_drop_own => [out_body]
  | wasi_io_streams_output_stream_drop_own => [out_body_stream]
  | wasi_http_types_request_options_drop_own => [request_options]
  | wasi_http_types_future_incoming_response_drop_own => [future_response]
  | wasi_io_poll_pollable_drop_own => [pollable]
  | wasi_http_types_incoming_response_drop_own => [response]
  | wasi_http_types_incoming_body_drop_own => [incoming_body]
  | wasi_io_streams_input_stream_drop_own => [incoming_body_stream]
  | _ => []
  end.

Definition handle_eqb (a b : handle) : bool :=
  match a, b with
  | headers, headers | request, request | out_body, out_body
  | out_body_stream, out_body_stream | request_options, request_options
  | future_response, future_response | pollable, pollable
  | response, response | incoming_body, incoming_body
  | incoming_body_stream, incoming_body_stream => true
  | _, _ => false
  end.

(** Release [h], which has to be the handle acquired last among those
    still held; [None] when it is not. *)
Definition give_up_handle (h : handle) (held : list handle)
  : option (list handle) :=
  match held with
  | [] => None
  | h' :: rest => if handle_eqb h h' then Some rest else None
  end.

Fixpoint give_up_handles (hs : list handle) (held : list handle)
  : option (list handle) :=
  match hs with
  | [] => Some held
  | h :: hs' =>
      match give_up_handle h held with
      | Some held' => give_up_handles hs' held'
      | None => None
      end
  end.

(** The handles still held after a trace, most recently acquired
    first; [None] when the trace releases a handle that is not held (a
    second drop) or releases handles in another order than the reverse
    of their acquisition. *)
Fixpoint held_after (t : list event) (held : list handle)
  : option (list handle) :=
  match t with
  | [] => Some held
  | e :: t' =>
      match give_up_handles (releases e) held with
      | Some held' => held_after t' (acquires e ++ held')
      | None => None
      end
  end.

(** *** The steps of the outgoing-request workflow *)

Inductive step : Type :=
| construct_request | set_method | set_path | set_scheme | set_authority
| open_body_stream | write_body | finish_body | set_timeouts | dispatch
| poll_loop | read_status | stream_body.

Definition position (st : step) : nat :=
  match st with
  | construct_request => 0 | set_method => 1 | set_path => 2
  | set_scheme => 3 | set_authority => 4 | open_body_stream => 5
  | write_body => 6 | finish_body => 7 | set_timeouts => 8
  | dispatch => 9 | poll_loop => 10 | read_status => 11
  | stream_body => 12
  end%nat.

(** The step an import belongs to; the [drop_own] calls are releases,
    not steps. *)
Definition step_of (f : import) : option step :=
  match f with
  | wasi_http_types_static_fields_from_list _
  | wasi_http_types_constructor_outgoing_request => Some construct_request
  | wasi_http_types_method_outgoing_request_set_method _ => Some set_method
  | wasi_http_types_method_outgoing_request_set_path_with_query _ =>
      Some set_path
  | wasi_http_types_method_outgoing_request_set_scheme _ => Some set_scheme
  | wasi_http_types_method_outgoing_request_set_authority _ =>
      Some set_authority
  | wasi_http_types_method_outgoing_request_body
  | wasi_http_types_method_outgoing_body_write => Some open_body_stream
  | wasi_io_streams_method_output_stream_blocking_write_and_flush _ =>
      Some write_body
  | wasi_http_types_static_outgoing_body_finish => Some finish_body
  | wasi_http_types_constructor_request_options
  | wasi_http_types_method_request_options_set_connect_timeout _
  | wasi_http_types_method_request_options_set_first_byte_timeout _
  | wasi_http_types_method_request_options_set_between_bytes_timeout _ =>
      Some set_timeouts
  | wasi_http_outgoing_handler_handle => Some dispatch
  | wasi_http_types_method_future_incoming_response_get
  | wasi_http_types_method_future_incoming_response_subscribe
  | wasi_io_poll_poll => Some poll_loop
  | wasi_http_types_method_incoming_response_status => Some read_status
  | wasi_http_types_method_incoming_response_consume
  | wasi_http_types_method_incoming_body_stream
  | wasi_io_streams_method_input_stream_blocking_read _ => Some stream_body
  | _ => None
  end.

(** The place of an import in the workflow: its call site, counted in
    source order.  The imports of one step of the workflow have
    consecutive places, the three imports of the response loop share
    one, and the [drop_own] calls have none. *)
Definition stage (f : import) : option nat :=
  match f with
  | wasi_http_types_static_fields_from_list _ => Some 0
  | wasi_http_types_constructor_outgoing_request => Some 1
  | wasi_http_types_method_outgoing_request_set_method _ => Some 2
  | wasi_http_types_method_outgoing_request_set_path_with_query _ => Some 3
  | wasi_http_types_method_outgoing_request_set_scheme _ => Some 4
  | wasi_http_types_method_outgoing_request_set_authority _ => Some 5
  | wasi_http_types_method_outgoing_request_body => Some 6
  | wasi_http_types_method_outgoing_body_write => Some 7
  | wasi_io_streams_method_output_stream_blocking_write_and_flush _ => Some 8
  | wasi_http_types_static_outgoing_body_finish => Some 9
  | wasi_http_types_constructor_request_options => Some 10
  | wasi_http_types_method_request_options_set_connect_timeout _ => Some 11
  | wasi_http_types_method_request_options_set_first_byte_timeout _ =>
      Some 12
  | wasi_http_types_method_request_options_set_between_bytes_timeout _ =>
      Some 13
  | wasi_http_outgoing_handler_handle => Some 14
  | wasi_http_types_method_future_incoming_response_get
  | wasi_http_types_method_future_incoming_response_subscribe
  | wasi_io_poll_poll => Some 15
  | wasi_http_types_method_incoming_response_status => Some 16
  | wasi_http_types_method_incoming_response_consume => Some 17
  | wasi_http_types_method_incoming_body_stream => Some 18
  | wasi_io_streams_method_input_stream_blocking_read _ => Some 19
  | _ => None
  end%nat.

(** The answer with which an import has succeeded and the workflow may
    go on to the next place: [true] from a [bool] import, the handle of
    a constructor, the status, a response from the future.  A future
    that is not ready, the calls that wait for it and the reads of the
    body stream lead to no next place. *)
Definition passes (ev : event) : bool :=
  match snd ev with
  | returned_bool b => b
  | returned_future (Some r) => got_response r
  | returned_future None => false
  | returned_status _ => true
  | returned_read _ => false
  | returned_void =>
      match fst ev with
      | wasi_http_types_method_future_incoming_response_subscribe
      | wasi_io_poll_poll => false
      | _ => true
      end
  end.

(** The answer after which the workflow is over: [false] from a [bool]
    import, a result of the future that is no response, an error of the
    body stream (closed included). *)
Definition final_answer (ev : event) : bool :=
  match stage (fst ev) with
  | None => false
  | Some _ =>
      match snd ev with
      | returned_bool b => negb b
      | returned_future (Some r) => negb (got_response r)
      | returned_read (read_error _) => true
      | _ => false
      end
  end.

(** Following a trace through the workflow: at place [c] while every
    import has been called at its place, the next place being reached
    only with an answer that passes; over after a final answer, when no
    import with a place may be called any more; out of order once an
    import has been called out of turn. *)
Inductive progress : Type :=
| at_stage (c : nat)
| ended
| out_of_order.

Definition advance (p : progress) (ev : event) : progress :=
  match p with
  | at_stage c =>
      match stage (fst ev) with
      | None => at_stage c
      | Some n =>
          if Nat.eqb n c then
            if final_answer ev then ended
            else if passes ev then at_stage (S c) else at_stage c
          else out_of_order
      end
  | ended =>
      match stage (fst ev) with
      | None => ended
      | Some _ => out_of_order
      end
  | out_of_order => out_of_order
  end.

Definition order_state (t : list event) : progress :=
  fold_left advance t (at_stage 0).

(** The steps a trace goes through, one entry per import called. *)
Definition steps_of (t : list event) : list step :=
  flat_map (fun ev => match step_of (fst ev) with
                      | Some st => [st]
                      | None => []
                      end) t.

(** The strings [send] hands back on its failure exits. *)
Definition error_messages : list string :=
  [ "Failed to create header list"; "Failed to set method";
    "Failed to set path"; "Failed to set scheme";
    "Failed to set authority"; "Failed to get outgoing body";
    "Failed to get outgoing body stream"; "Failed to write body";
    "Failed to finish body"; "Failed to set connect timeout";
    "Failed to set first byte timeout";
    "Failed to set between-bytes timeout"; "Failed to send request";
    "Returned with error code"; "Returned with error";
    "Failed to consume response"; "Failed to get body stream";
    "Failed to read from body stream" ].

(** The chunks a trace has read from the incoming body stream, in
    read order. *)
Fixpoint chunks_read (t : list event) : list string :=
  match t with
  | [] => []
  | (_, returned_read (read_chunk c)) :: t' => c :: chunks_read t'
  | _ :: t' => chunks_read t'
  end.

(** The state an export is entered in: the counter at [t], [*ret]
    unset, no import called yet. *)
Definition entry (t : Z) : state := {| total := t; ret := None; trace := [] |}.

Definition state_of {A : Type} (r : result A) : state :=
  match r with
  | Next _ s => s
  | Returned s => s
  | Pending s => s
  end.

(** The events of [n] rounds of the response loop that found no
    result yet. *)
Fixpoint polling (n : nat) : list event :=
  match n with
  | O => []
  | S n' =>
      (wasi_http_types_method_future_incoming_response_get,
       returned_future None)
      :: (wasi_http_types_method_future_incoming_response_subscribe,
          returned_void)
      :: (wasi_io_poll_poll, returned_void)
      :: (wasi_io_poll_pollable_drop_own, returned_void)
      :: polling n'
  end.

(** The events of reading the body stream with the given answers. *)
Definition reading (rs : list read_result) : list event :=
  map (fun r => (wasi_io_streams_method_input_stream_blocking_read 1024,
                 returned_read r)) rs.

(** Concatenation of chunks, first chunk first. *)
Definition join (chunks : list string) : string :=
  fold_right append "" chunks.

(** The answers of the body stream a trace has seen, in read order. *)
Fixpoint reads_of (t : list event) : list read_result :=
  match t with
  | [] => []
  | (_, returned_read r) :: t' => r :: reads_of t'
  | _ :: t' => reads_of t'
  end.

(** Every import with a single call site hands back success. *)
Definition calls_succeed (e : env) : bool :=
  fields_from_list_ok e && set_method_ok e && set_path_with_query_ok e
  && set_scheme_ok e && set_authority_ok e && outgoing_request_body_ok e
  && outgoing_body_write_ok e && blocking_write_and_flush_ok e
  && outgoing_body_finish_ok e && set_connect_timeout_ok e
  && set_first_byte_timeout_ok e && set_between_bytes_timeout_ok e
  && handle_ok e && consume_ok e && incoming_body_stream_ok e.

(** An environment in which nothing fails: the response is there at
    the first [get], with status 200, and the body stream hands over
    the given chunks and then reports the error tagged [last]. *)
Definition serving (chunks : list string) (last : Z) : env :=
  {| fields_from_list_ok := true;
     set_method_ok := true;
     set_path_with_query_ok := true;
     set_scheme_ok := true;
     set_authority_ok := true;
     outgoing_request_body_ok := true;
     outgoing_body_write_ok := true;
     blocking_write_and_flush_ok := true;
     outgoing_body_finish_ok := true;
     set_connect_timeout_ok := true;
     set_first_byte_timeout_ok := true;
     set_between_bytes_timeout_ok := true;
     handle_ok := true;
     future_answers :=
       [Some {| is_err := false; ok_is_err := false; err_tag := 0 |}];
     status_code := 200;
     consume_ok := true;
     incoming_body_stream_ok := true;
     read_answers := map read_chunk chunks ++ [read_error last] |}.

(** A trace respects the order of the workflow: when an import is
    called, every import called before it has its place at or before
    that of this one, none of them has given a final answer, and at
    every earlier place an import has been called and has passed. *)
Definition steps_respected (t : list event) : Prop :=
  forall l1 ev l2 n,
    t = (l1 ++ ev :: l2)%list ->
    stage (fst ev) = Some n ->
    (forall ev' n',
        In ev' l1 -> stage (fst ev') = Some n' -> (n' <= n)%nat)
    /\ (forall n',
           (n' < n)%nat ->
           exists ev',
             In ev' l1 /\ stage (fst ev') = Some n' /\ passes ev' = true)
    /\ (forall ev', In ev' l1 -> final_answer ev' = false).

(** An environment in which nothing fails and the future of the
    response is not ready, however often it is asked, for the [n]
    rounds it is followed. *)
Definition unanswered (n : nat) : env :=
  {| fields_from_list_ok := true;
     set_method_ok := true;
     set_path_with_query_ok := true;
     set_scheme_ok := true;
     set_authority_ok := true;
     outgoing_request_body_ok := true;
     outgoing_body_write_ok := true;
     blocking_write_and_flush_ok := true;
     outgoing_body_finish_ok := true;
     set_connect_timeout_ok := true;
     set_first_byte_timeout_ok := true;
     set_between_bytes_timeout_ok := true;
     handle_ok := true;
     future_answers := repeat None n;
     status_code := 200;
     consume_ok := true;
     incoming_body_stream_ok := true;
     read_answers := [] |}.

(** *** Further notions used to describe the runs of [send] *)

(** [strlen] of the C library on a buffer holding [s] and then a NUL:
    the number of bytes before the first NUL. *)
Fixpoint strlen (s : string) : nat :=
  match s with
  | EmptyString => 0
  | String c s' => if Ascii.eqb c "000" then 0 else S (strlen s')
  end.

(** The [..._drop_own] imports. *)
Definition is_drop_own (f : import) : bool :=
  match f with
  | wasi_http_types_outgoing_request_drop_own
  | wasi_http_types_outgoing_body_drop_own
  | wasi_io_streams_output_stream_drop_own
  | wasi_http_types_request_options_drop_own
  | wasi_http_types_future_incoming_response_drop_own
  | wasi_io_poll_pollable_drop_own
  | wasi_http_types_incoming_response_drop_own
  | wasi_http_types_incoming_body_drop_own
  | wasi_io_streams_input_stream_drop_own => true
  | _ => false
  end.

(** An import has reported a failure: [false] from a [bool] import, a
    result of the future that is no response, or a stream error other
    than closed. *)
Definition failure (closed : Z) (ev : event) : bool :=
  match snd ev with
  | returned_bool b => negb b
  | returned_future (Some r) => negb (got_response r)
  | returned_read (read_error tag) => negb (Z.eqb tag closed)
  | _ => false
  end.

(** The calls that configure the outgoing request when each of them
    succeeds, lines 45-189, with the counter at [t]. *)
Definition request_setup (t : Z) : list event :=
  [ (wasi_http_types_static_fields_from_list
       [("Content-Type", "application/json");
        ("Accept", "application/json")], returned_bool true);
    (wasi_http_types_constructor_outgoing_request, returned_void);
    (wasi_http_types_method_outgoing_request_set_method
       WASI_HTTP_TYPES_METHOD_POST, returned_bool true);
    (wasi_http_types_method_outgoing_request_set_path_with_query "/post",
     returned_bool true);
    (wasi_http_types_method_outgoing_request_set_scheme
       WASI_HTTP_TYPES_SCHEME_HTTPS, returned_bool true);
    (wasi_http_types_method_outgoing_request_set_authority "httpbin.org",
     returned_bool true);
    (wasi_http_types_method_outgoing_request_body, returned_bool true);
    (wasi_http_types_method_outgoing_body_write, returned_bool true);
    (wasi_io_streams_method_output_stream_blocking_write_and_flush
       (sprintf_count t), returned_bool true);
    (wasi_io_streams_output_stream_drop_own, returned_void);
    (wasi_http_types_static_outgoing_body_finish, returned_bool true);
    (wasi_http_types_constructor_request_options, returned_void);
    (wasi_http_types_method_request_options_set_connect_timeout 5000000000,
     returned_bool true);
    (wasi_http_types_method_request_options_set_first_byte_timeout
       5000000000, returned_bool true);
    (wasi_http_types_method_request_options_set_between_bytes_timeout
       5000000000, returned_bool true) ].

(** Every import up to and including the dispatch hands back success. *)
Definition request_sent (e : env) : bool :=
  fields_from_list_ok e && set_method_ok e && set_path_with_query_ok e
  && set_scheme_ok e && set_authority_ok e && outgoing_request_body_ok e
  && outgoing_body_write_ok e && blocking_write_and_flush_ok e
  && outgoing_body_finish_ok e && set_connect_timeout_ok e
  && set_first_byte_timeout_ok e && set_between_bytes_timeout_ok e
  && handle_ok e.

(** The number of calls, in a trace, of the imports selected by [p]. *)
Definition calls_to (p : import -> bool) (t : list event) : nat :=
  List.length (filter (fun ev => p (fst ev)) t).

Definition is_future_get (f : import) : bool :=
  match f with
  | wasi_http_types_method_future_incoming_response_get => true
  | _ => false
  end.

Definition is_poll (f : import) : bool :=
  match f with wasi_io_poll_poll => true | _ => false end.

Definition is_response_import (f : import) : bool :=
  match f with
  | wasi_http_types_method_incoming_response_status
  | wasi_http_types_method_incoming_response_consume
  | wasi_http_types_method_incoming_body_stream
  | wasi_io_streams_method_input_stream_blocking_read _ => true
  | _ => false
  end.

Definition is_dispatch (f : import) : bool :=
  match f with wasi_http_outgoing_handler_handle => true | _ => false end.

(** An environment in which nothing fails before the response loop,
    whose future is not ready for [polls] rounds and then yields [r]. *)
Definition resolving (polls : nat) (r : future_result) : env :=
  {| fields_from_list_ok := true;
     set_method_ok := true;
     set_path_with_query_ok := true;
     set_scheme_ok := true;
     set_authority_ok := true;
     outgoing_request_body_ok := true;
     outgoing_body_write_ok := true;
     blocking_write_and_flush_ok := true;
     outgoing_body_finish_ok := true;
     set_connect_timeout_ok := true;
     set_first_byte_timeout_ok := true;
     set_between_bytes_timeout_ok := true;
     handle_ok := true;
     future_answers := (repeat None polls ++ [Some r])%list;
     status_code := 200;
     consume_ok := true;
     incoming_body_stream_ok := true;
     read_answers := [read_error 1] |}.

(** [add(v_1); ...; add(v_N)], first call first. *)
Fixpoint adds (vs : list Z) : M unit :=
  match vs with
  | [] => pure tt
  | v :: vs' => exports_pack_name_api_add v ;; adds vs'
  end.

(** The events of a trace after the first failure reported; none when
    no failure was reported. *)
Fixpoint after_first_failure (closed : Z) (t : list event) : list event :=
  match t with
  | [] => []
  | ev :: t' =>
      if failure closed ev then t' else after_first_failure closed t'
  end.

(** The environment [e] with the status of the response replaced. *)
Definition with_status (e : env) (status : Z) : env :=
  {| fields_from_list_ok := fields_from_list_ok e;
     set_method_ok := set_method_ok e;
     set_path_with_query_ok := set_path_with_query_ok e;
     set_scheme_ok := set_scheme_ok e;
     set_authority_ok := set_authority_ok e;
     outgoing_request_body_ok := outgoing_request_body_ok e;
     outgoing_body_write_ok := outgoing_body_write_ok e;
     blocking_write_and_flush_ok := blocking_write_and_flush_ok e;
     outgoing_body_finish_ok := outgoing_body_finish_ok e;
     set_connect_timeout_ok := set_connect_timeout_ok e;
     set_first_byte_timeout_ok := set_first_byte_timeout_ok e;
     set_between_bytes_timeout_ok := set_between_bytes_timeout_ok e;
     handle_ok := handle_ok e;
     future_answers := future_answers e;
     status_code := status;
     consume_ok := consume_ok e;
     incoming_body_stream_ok := incoming_body_stream_ok e;
     read_answers := read_answers e |}.

(** The way an export has left off, without the state. *)
Definition outcome_kind {A : Type} (r : result A) : nat :=
  match r with
  | Next _ _ => 0
  | Returned _ => 1
  | Pending _ => 2
  end%nat.

End CExampleHttp.







(** ** test-components/large-dynamic-memory/main.c *)

Module LargeDynamicMemory.

(** [#define PAGE_SIZE 1024*1024] and [#define COUNT 512].  The macro
    is used as [malloc(PAGE_SIZE)] and [DATA[PAGE_SIZE-1]], that is
    [DATA[1024*1024-1]]. *)
Definition PAGE_SIZE : Z := 1024 * 1024.
Definition COUNT : Z := 512.

(** A block handed out by [malloc]: its size and the bytes found in
    it ([run] never writes them). *)
Record block : Type := { size : Z; bytes : Z -> Z }.

(** A pointer is [NULL] or the start of a block. *)
Definition pointer : Type := option block.

(** The allocator of the runtime: its [k]-th call fails, or finds
    memory holding some bytes. *)
Definition allocator : Type := nat -> option (Z -> Z).

Definition malloc (a : allocator) (k : nat) (n : Z) : pointer :=
  option_map (fun c => {| size := n; bytes := c |}) (a k).

Inductive fault : Type := null_dereference | out_of_bounds.

(** [p[i]] *)
Definition load (p : pointer) (i : Z) : fault + Z :=
  match p with
  | None => inl null_dereference
  | Some b =>
      if (0 <=? i) && (i <? size b) then inr (bytes b i)
      else inl out_of_bounds
  end.

Inductive event : Type :=
| called_malloc (n : Z)
| printed_first (i : Z) (v : Z)     (* "page %d first: %d\n" *)
| printed_last (i : Z) (v : Z)      (* "page %d last:  %d\n" *)
| called_usleep (us : Z).

Inductive outcome : Type :=
| returned (v : Z)
| crashed (f : fault).

(** [for (int i = 0; i < COUNT; i++) { ... }]: [todo] is the number of
    iterations left, [COUNT - i]. *)
Fixpoint iterate (a : allocator) (todo : nat) (i : Z) (log : list event)
  : list event * outcome :=
  match todo with
  | O => (log, returned 0)
  | S todo' =>
      let DATA := malloc a (Z.to_nat i) PAGE_SIZE in
      let log := log ++ [called_malloc PAGE_SIZE] in
      match load DATA 0 with
      | inl f => (log, crashed f)
      | inr first =>
          let log := log ++ [printed_first i first] in
          match load DATA (PAGE_SIZE - 1) with
          | inl f => (log, crashed f)
          | inr last =>
              iterate a todo' (i + 1)
                (log ++ [printed_last i last; called_usleep 5])
          end
      end
  end.

(** [uint64_t exports_c_api1_run(void)] *)
Definition exports_c_api1_run (a : allocator) : list event * outcome :=
  iterate a (Z.to_nat COUNT) 0 [].

(** What one iteration logs when its allocation has succeeded. *)
Definition iteration (a : allocator) (k : nat) : list event :=
  match a k with
  | Some c =>
      [ called_malloc PAGE_SIZE;
        printed_first (Z.of_nat k) (c 0);
        printed_last (Z.of_nat k) (c (PAGE_SIZE - 1));
        called_usleep 5 ]
  | None => [called_malloc PAGE_SIZE]
  end.

(** An allocator that finds zeroed memory for its first [n] calls and
    fails from then on. *)
Definition exhausted_after (n : nat) : allocator :=
  fun k => if Nat.ltb k n then Some (fun _ => 0) else None.

End LargeDynamicMemory.


(** ** test-components/c-1/main.c *)

Module TestComponentC1.

(** [size_t] of the wasm32 target. *)
Definition SIZE_MODULUS : Z := 2 ^ 32.

(** [c_api1_string_t]: [ptr] gives the byte found at each offset from
    [s->ptr] (memory goes on after the string), [len] is [s->len]. *)
Record c_api1_string_t : Type := { ptr : nat -> Z; len : nat }.

Inductive fault : Type := null_dereference | out_of_bounds.

(** A heap buffer: [None] is [NULL]. *)
Definition buffer : Type := option (list Z).

(** [malloc(n)]: the allocation fails, or finds [n] bytes of memory
    holding whatever [found] says. *)
Definition malloc (found : option (nat -> Z)) (n : nat) : buffer :=
  option_map (fun g => map g (seq 0 n)) found.

(** [memset(buf, 0, n)] *)
Definition memset_zero (buf : buffer) (n : nat) : fault + buffer :=
  match buf with
  | None => if Nat.eqb n 0 then inr None else inl null_dereference
  | Some l =>
      if Nat.leb n (List.length l) then inr (Some (repeat 0 n ++ skipn n l))
      else inl out_of_bounds
  end.

Fixpoint store_list (l : list Z) (i : nat) (v : Z) : option (list Z) :=
  match l, i with
  | [], _ => None
  | _ :: t, O => Some (v :: t)
  | h :: t, S i' => option_map (cons h) (store_list t i' v)
  end.

(** [buf[i] = v] *)
Definition store (buf : buffer) (i : nat) (v : Z) : fault + buffer :=
  match buf with
  | None => inl null_dereference
  | Some l =>
      match store_list l i v with
      | Some l' => inr (Some l')
      | None => inl out_of_bounds
      end
  end.

(** Zero the [n] bytes of [buf] from offset [i] on. *)
Fixpoint pad (buf : buffer) (i n : nat) : fault + buffer :=
  match n with
  | O => inr buf
  | S n' =>
      match store buf i 0 with
      | inl f => inl f
      | inr buf' => pad buf' (S i) n'
      end
  end.

(** [strncpy(dst, src, n)] of the C library: at most [n] bytes are
    copied, one at a time from offset [i] on; after a NUL the rest of
    the [n] bytes of [dst] is zeroed and [src] is read no further.
    [reads] collects the offsets of [src] read. *)
Fixpoint strncpy (dst : buffer) (src : nat -> Z) (i n : nat)
    (reads : list nat) : list nat * (fault + buffer) :=
  match n with
  | O => (reads, inr dst)
  | S n' =>
      let c := src i in
      let reads := reads ++ [i] in
      match store dst i c with
      | inl f => (reads, inl f)
      | inr dst' =>
          if c =? 0 then (reads, pad dst' (S i) n')
          else strncpy dst' src (S i) n' reads
      end
  end.

(** The bytes [printf("%s", buf)] prints: those before the first NUL;
    [None] when the buffer holds no NUL. *)
Fixpoint c_string (l : list Z) : option (list Z) :=
  match l with
  | [] => None
  | c :: t => if c =? 0 then Some [] else option_map (cons c) (c_string t)
  end.

(** What a call of [print] does: the offsets of [s->ptr] it reads, in
    order, and what it prints ([%s] and [%d]) unless it faults. *)
Record behaviour : Type := {
  reads : list nat;
  printed : fault + (list Z * Z)
}.

(** [void exports_c_api1_print(c_api1_string_t *s)]; [found] is the
    answer of the allocator and [tm_year] the year field [localtime]
    reports. *)
Definition exports_c_api1_print (s : c_api1_string_t)
    (found : option (nat -> Z)) (tm_year : Z) : behaviour :=
  let n := Z.to_nat ((Z.of_nat (len s) + 1) mod SIZE_MODULUS) in
  let buf := malloc found n in
  match memset_zero buf n with
  | inl f => {| reads := []; printed := inl f |}
  | inr buf =>
      match strncpy buf (ptr s) 0 (len s) [] with
      | (rs, inl f) => {| reads := rs; printed := inl f |}
      | (rs, inr buf) =>
          match buf with
          | None => {| reads := rs; printed := inl null_dereference |}
          | Some l =>
              match c_string l with
              | None => {| reads := rs; printed := inl out_of_bounds |}
              | Some str =>
                  {| reads := rs; printed := inr (str, tm_year + 1900) |}
              end
          end
      end
  end.

(** The bytes of [l] before its first NUL, all of [l] when it has
    none. *)
Fixpoint until_nul (l : list Z) : list Z :=
  match l with
  | [] => []
  | c :: t => if c =? 0 then [] else c :: until_nul t
  end.

End TestComponentC1.


(** * Properties *)

(** ** The counter *)

Lemma add_u64_range (a b : Z) : is_u64 (add_u64 a b).
Proof.
  unfold is_u64, add_u64, UINT64_MODULUS.
  apply Z.mod_pos_bound. reflexivity.
Qed.

Lemma add_u64_swap (t x y : Z) :
  add_u64 (add_u64 t x) y = add_u64 (add_u64 t y) x.
Proof.
  unfold add_u64.
  rewrite !Z.add_mod_idemp_l by (unfold UINT64_MODULUS; lia).
  f_equal. lia.
Qed.

Lemma sum_nonneg (vs : list Z) : Forall is_u64 vs -> 0 <= sum vs.
Proof.
  induction 1 as [| v vs Hv _ IH]; simpl.
  - lia.
  - unfold is_u64 in Hv. lia.
Qed.

(** The counter after a run of [add] calls, up to reduction. *)
Lemma fold_add_u64 (vs : list Z) (t : Z) :
  fold_left add_u64 vs t mod UINT64_MODULUS
  = (t + sum vs) mod UINT64_MODULUS.
Proof.
  revert t. induction vs as [| v vs IH]; intros t; simpl.
  - rewrite Z.add_0_r. reflexivity.
  - rewrite IH. unfold add_u64.
    rewrite Z.add_mod_idemp_l by (unfold UINT64_MODULUS; lia).
    f_equal. lia.
Qed.

Lemma fold_add_u64_range (vs : list Z) (t : Z) :
  is_u64 t -> is_u64 (fold_left add_u64 vs t).
Proof.
  revert t. induction vs as [| v vs IH]; intros t Ht; simpl.
  - exact Ht.
  - apply IH, add_u64_range.
Qed.

Lemma fold_add_u64_fresh (vs : list Z) :
  fold_left add_u64 vs 0 = sum vs mod UINT64_MODULUS.
Proof.
  rewrite <- (Z.mod_small (fold_left add_u64 vs 0) UINT64_MODULUS).
  - rewrite fold_add_u64. reflexivity.
  - apply fold_add_u64_range. unfold is_u64, UINT64_MODULUS. lia.
Qed.

Lemma CDefault_adds_total (vs : list Z) (s : CDefault.state) :
  CDefault.total (CDefault.adds vs s) = fold_left add_u64 vs (CDefault.total s).
Proof.
  unfold CDefault.adds. revert s.
  induction vs as [| v vs IH]; intros s; simpl.
  - reflexivity.
  - rewrite IH. reflexivity.
Qed.

Lemma CAppComponent_adds_total (vs : list Z) (s : CAppComponent.state) :
  CAppComponent.total (CAppComponent.adds vs s)
  = fold_left add_u64 vs (CAppComponent.total s).
Proof.
  unfold CAppComponent.adds. revert s.
  induction vs as [| v vs IH]; intros s; simpl.
  - reflexivity.
  - rewrite IH. reflexivity.
Qed.

(** C1, as stated, fails: two arguments within [uint64_t] whose sum
    reaches [2^64] leave the counter at 0, not at their sum. *)
Lemma get_after_adds_not_sum :
  Forall is_u64 [18446744073709551615; 1]
  /\ fst (CDefault.exports_pack_name_api_get
            (CDefault.adds [18446744073709551615; 1] CDefault.fresh)) = 0
  /\ sum [18446744073709551615; 1] = 18446744073709551616
  /\ fst (CDefault.exports_pack_name_api_get
            (CDefault.adds [18446744073709551615; 1] CDefault.fresh))
     <> sum [18446744073709551615; 1].
Proof.
  repeat split.
  - repeat constructor; unfold is_u64, UINT64_MODULUS; simpl; lia.
  - discriminate.
Qed.

(** C1 (amended): on a freshly loaded instance, after [add(v_1)], ...,
    [add(v_N)] with [N >= 0] whose sum stays below [2^64], [get()]
    returns the sum of the [v_i], in the C component and in the C++
    one; for [N = 0] this is 0. *)
Theorem get_after_adds_is_sum (vs : list Z)
    (Hvs : Forall is_u64 vs) (Hsum : sum vs < UINT64_MODULUS) :
  fst (CDefault.exports_pack_name_api_get (CDefault.adds vs CDefault.fresh))
  = sum vs
  /\ fst (CAppComponent.exports_component_name_exports_component_name_api_get
            (CAppComponent.adds vs CAppComponent.fresh))
     = sum vs.
Proof.
  pose proof (sum_nonneg vs Hvs) as Hpos.
  split; simpl.
  - rewrite CDefault_adds_total. simpl.
    rewrite fold_add_u64_fresh. apply Z.mod_small. lia.
  - rewrite CAppComponent_adds_total. simpl.
    rewrite fold_add_u64_fresh. apply Z.mod_small. lia.
Qed.

Lemma get_after_adds_is_sum_witness :
  fst (CDefault.exports_pack_name_api_get
         (CDefault.adds [3; 4; 5] CDefault.fresh)) = 12
  /\ fst (CDefault.exports_pack_name_api_get (CDefault.adds [] CDefault.fresh))
     = 0.
Proof.
  split.
  - apply (get_after_adds_is_sum [3; 4; 5]).
    + repeat constructor; unfold is_u64, UINT64_MODULUS; simpl; lia.
    + unfold UINT64_MODULUS; simpl; lia.
  - apply (get_after_adds_is_sum []).
    + constructor.
    + unfold UINT64_MODULUS; simpl; lia.
Defined.

(** C9: from any counter value, two runs of [add] calls whose arguments
    are permutations of each other leave the same counter, so [get()]
    returns the same value after either. *)
Theorem get_after_adds_permutation (s : CDefault.state) (l1 l2 : list Z)
    (Hperm : Permutation l1 l2) :
  CDefault.adds l1 s = CDefault.adds l2 s
  /\ fst (CDefault.exports_pack_name_api_get (CDefault.adds l1 s))
     = fst (CDefault.exports_pack_name_api_get (CDefault.adds l2 s)).
Proof.
  assert (H : CDefault.adds l1 s = CDefault.adds l2 s).
  { revert s. unfold CDefault.adds.
    induction Hperm as [| x l l' _ IH | x y l | l l' l'' _ IH1 _ IH2];
      intros s; simpl.
    - reflexivity.
    - apply IH.
    - unfold CDefault.exports_pack_name_api_add at 2 3 5 6. simpl.
      rewrite add_u64_swap. reflexivity.
    - rewrite IH1. apply IH2. }
  split; [exact H | rewrite H; reflexivity].
Qed.

Lemma get_after_adds_permutation_witness :
  fst (CDefault.exports_pack_name_api_get
         (CDefault.adds [1; 2; 3] CDefault.fresh))
  = fst (CDefault.exports_pack_name_api_get
           (CDefault.adds [3; 1; 2] CDefault.fresh)).
Proof.
  apply (get_after_adds_permutation CDefault.fresh [1; 2; 3] [3; 1; 2]).
  apply Permutation_sym.
  apply (Permutation_cons_app [1; 2] [] 3). apply Permutation_refl.
Defined.

(** C10: [add(v)] takes the counter from [t] to [(t + v) mod 2^64], and
    on a fresh instance [get()] after [add(v_1)], ..., [add(v_N)]
    returns the sum of the [v_i] modulo [2^64]: it wraps, the call
    neither saturates nor fails. *)
Theorem add_wraps_modulo_2_64 :
  (forall (s : CDefault.state) (v : Z),
      CDefault.total (CDefault.exports_pack_name_api_add v s)
      = (CDefault.total s + v) mod 2 ^ 64)
  /\ (forall vs : list Z,
         fst (CDefault.exports_pack_name_api_get
                (CDefault.adds vs CDefault.fresh))
         = sum vs mod 2 ^ 64).
Proof.
  split.
  - intros s v. reflexivity.
  - intros vs. simpl. rewrite CDefault_adds_total. simpl.
    apply fold_add_u64_fresh.
Qed.

(** ** The counter: further properties *)

Lemma CAppComponent_add_swap (s : CAppComponent.state) (x y : Z) :
  CAppComponent.exports_pack_name_exports_component_name_api_add y
    (CAppComponent.exports_pack_name_exports_component_name_api_add x s)
  = CAppComponent.exports_pack_name_exports_component_name_api_add x
      (CAppComponent.exports_pack_name_exports_component_name_api_add y s).
Proof.
  unfold CAppComponent.exports_pack_name_exports_component_name_api_add.
  cbn [CAppComponent.total]. rewrite add_u64_swap. reflexivity.
Qed.

(** X8: the counter of the C++ component: on a fresh instance [get()]
    after [add(v_1)], ..., [add(v_N)] returns the sum modulo [2^64];
    after at least one [add] the counter is within [uint64_t], whatever
    it was; and runs of [add] calls that are permutations of each other
    leave the same state. *)
Theorem cpp_counter_wraps_and_ignores_order :
  (forall vs : list Z,
      fst (CAppComponent.exports_component_name_exports_component_name_api_get
             (CAppComponent.adds vs CAppComponent.fresh))
      = sum vs mod 2 ^ 64)
  /\ (forall (s : CAppComponent.state) (vs : list Z),
         vs <> [] -> is_u64 (CAppComponent.total (CAppComponent.adds vs s)))
  /\ (forall (s : CAppComponent.state) (l1 l2 : list Z),
         Permutation l1 l2 ->
         CAppComponent.adds l1 s = CAppComponent.adds l2 s).
Proof.
  split; [| split].
  - intros vs. cbn [fst CAppComponent.exports_component_name_exports_component_name_api_get].
    rewrite CAppComponent_adds_total. apply fold_add_u64_fresh.
  - intros s [| v vs] Hne; [now destruct Hne |].
    rewrite CAppComponent_adds_total. cbn [fold_left].
    apply fold_add_u64_range, add_u64_range.
  - intros s l1 l2 Hperm. revert s. unfold CAppComponent.adds.
    induction Hperm as [| x l l' _ IH | x y l | l l' l'' _ IH1 _ IH2];
      intros s; simpl.
    + reflexivity.
    + apply IH.
    + rewrite CAppComponent_add_swap. reflexivity.
    + rewrite IH1. apply IH2.
Qed.

Lemma cpp_counter_wraps_and_ignores_order_witness :
  CAppComponent.adds [1; 2; 3] CAppComponent.fresh
  = CAppComponent.adds [3; 1; 2] CAppComponent.fresh
  /\ is_u64 (CAppComponent.total
               (CAppComponent.adds [18446744073709551615; 2]
                  CAppComponent.fresh)).
Proof.
  destruct cpp_counter_wraps_and_ignores_order as (_ & Hrange & Hperm).
  split.
  - apply Hperm. apply Permutation_sym.
    apply (Permutation_cons_app [1; 2] [] 3). apply Permutation_refl.
  - apply Hrange. discriminate.
Defined.

(** X9: for a counter within [uint64_t], [add(v)] followed by
    [add(2^64 - v)] with [0 < v < 2^64] leaves the counter as it was,
    and so does [add(0)]. *)
Theorem add_complement_restores_counter (s : CDefault.state) (v : Z)
    (Hs : is_u64 (CDefault.total s)) (Hv : 0 < v < 2 ^ 64) :
  is_u64 (2 ^ 64 - v)
  /\ CDefault.exports_pack_name_api_add (2 ^ 64 - v)
       (CDefault.exports_pack_name_api_add v s) = s
  /\ CDefault.exports_pack_name_api_add 0 s = s.
Proof.
  unfold is_u64, UINT64_MODULUS in *. destruct s as [t].
  cbn [CDefault.total] in Hs.
  unfold CDefault.exports_pack_name_api_add, add_u64, UINT64_MODULUS.
  cbn [CDefault.total].
  split; [lia |]. split; f_equal.
  - rewrite Z.add_mod_idemp_l by lia.
    replace (t + v + (2 ^ 64 - v)) with (t + 1 * 2 ^ 64) by lia.
    rewrite Z.mod_add by lia. apply Z.mod_small. lia.
  - rewrite Z.add_0_r. apply Z.mod_small. lia.
Qed.

Lemma add_complement_restores_counter_witness :
  CDefault.exports_pack_name_api_add (2 ^ 64 - 5)
    (CDefault.exports_pack_name_api_add 5 {| CDefault.total := 7 |})
  = {| CDefault.total := 7 |}.
Proof.
  apply (add_complement_restores_counter {| CDefault.total := 7 |} 5).
  - unfold is_u64, UINT64_MODULUS. cbn [CDefault.total]. lia.
  - lia.
Defined.

(** ** The HTTP example *)

Section CExampleHttpProperties.

Import CExampleHttp.
Open Scope string_scope.
Open Scope list_scope.

(** *** Strings and answer lists *)

Lemma string_append_assoc (a b c : string) : ((a ++ b) ++ c = a ++ (b ++ c))%string.
Proof. induction a as [| x a IH]; simpl; [reflexivity | now rewrite IH]. Qed.

Lemma string_append_empty_r (a : string) : (a ++ "")%string = a.
Proof. induction a as [| x a IH]; simpl; [reflexivity | now rewrite IH]. Qed.

Lemma future_answers_cases (answers : list (option future_result)) :
  (exists n r rest, answers = repeat None n ++ Some r :: rest)
  \/ (exists n, answers = repeat None n).
Proof.
  induction answers as [| [r |] rest IH].
  - right. exists 0%nat. reflexivity.
  - left. exists 0%nat, r, rest. reflexivity.
  - destruct IH as [(n & r & rest' & ->) | (n & ->)].
    + left. exists (S n), r, rest'. reflexivity.
    + right. exists (S n). reflexivity.
Qed.

Lemma read_answers_cases (answers : list read_result) :
  (exists chunks tag rest,
      answers = map read_chunk chunks ++ read_error tag :: rest)
  \/ (exists chunks, answers = map read_chunk chunks).
Proof.
  induction answers as [| [c | tag] rest IH].
  - right. exists []. reflexivity.
  - destruct IH as [(chunks & tag & rest' & ->) | (chunks & ->)].
    + left. exists (c :: chunks), tag, rest'. reflexivity.
    + right. exists (c :: chunks). reflexivity.
  - left. exists [], tag, rest. reflexivity.
Qed.

Lemma await_response_resolved (n : nat) (r : future_result)
    (rest : list (option future_result)) (s : state) :
  await_response (repeat None n ++ Some r :: rest) s
  = if got_response r then
      Next tt {| total := total s; ret := ret s;
                 trace := trace s ++ polling n ++
                   [(wasi_http_types_method_future_incoming_response_get,
                     returned_future (Some r))] |}
    else
      Returned {| total := total s;
                  ret := Some (if negb (is_err r) && ok_is_err r
                               then "Returned with error code"%string
                               else "Returned with error"%string);
                  trace := trace s ++ polling n ++
                    [(wasi_http_types_method_future_incoming_response_get,
                      returned_future (Some r));
                     (wasi_http_types_future_incoming_response_drop_own,
                      returned_void)] |}.
Proof.
  revert s. induction n as [| n IH]; intros s.
  - cbn [repeat app await_response polling].
    unfold bind, record, call_void, record, set_string, return_, pure, got_response.
    destruct (is_err r), (ok_is_err r); cbn; rewrite <- ?app_assoc; reflexivity.
  - cbn [repeat app await_response]. unfold bind at 1 2 3 4.
    unfold call_void, record. cbn [trace total ret]. rewrite IH.
    cbn [trace total ret polling]. rewrite <- !app_assoc.
    destruct (got_response r); reflexivity.
Qed.

Lemma await_response_unresolved (n : nat) (s : state) :
  await_response (repeat None n) s
  = Pending {| total := total s; ret := ret s;
               trace := trace s ++ polling n |}.
Proof.
  revert s. induction n as [| n IH]; intros s.
  - cbn. rewrite app_nil_r. destruct s; reflexivity.
  - cbn [repeat app await_response]. unfold bind at 1 2 3 4.
    unfold call_void, record. cbn [trace total ret]. rewrite IH.
    cbn [trace total ret polling]. rewrite <- !app_assoc. reflexivity.
Qed.

Lemma read_body_ended (closed : Z) (chunks : list string) (tag : Z)
    (rest : list read_result) (full_body : string) (s : state) :
  read_body closed (map read_chunk chunks ++ read_error tag :: rest)
    full_body s
  = if Z.eqb tag closed then
      Next (full_body ++ join chunks)%string
        {| total := total s; ret := ret s;
           trace := trace s
             ++ reading (map read_chunk chunks ++ [read_error tag]) |}
    else
      Returned
        {| total := total s;
           ret := Some "Failed to read from body stream"%string;
           trace := trace s
             ++ reading (map read_chunk chunks ++ [read_error tag])
             ++ [(wasi_io_streams_input_stream_drop_own, returned_void);
                 (wasi_http_types_incoming_body_drop_own, returned_void);
                 (wasi_http_types_incoming_response_drop_own,
                  returned_void)] |}.
Proof.
  revert full_body s. induction chunks as [| c chunks IH]; intros full_body s.
  - cbn [map app read_body join fold_right]. unfold bind at 1. unfold record.
    cbn [trace total ret]. rewrite string_append_empty_r.
    destruct (Z.eqb tag closed); cbn; rewrite <- ?app_assoc; reflexivity.
  - cbn [map app read_body]. unfold bind at 1. unfold record.
    cbn [trace total ret]. rewrite IH. cbn [trace total ret].
    cbn [join fold_right]. fold (join chunks).
    rewrite string_append_assoc, <- !app_assoc.
    destruct (Z.eqb tag closed); reflexivity.
Qed.

Lemma read_body_unended (closed : Z) (chunks : list string)
    (full_body : string) (s : state) :
  read_body closed (map read_chunk chunks) full_body s
  = Pending {| total := total s; ret := ret s;
               trace := trace s ++ reading (map read_chunk chunks) |}.
Proof.
  revert full_body s. induction chunks as [| c chunks IH]; intros full_body s.
  - cbn. rewrite app_nil_r. destruct s; reflexivity.
  - cbn [map read_body]. unfold bind at 1. unfold record.
    cbn [trace total ret]. rewrite IH. cbn [trace total ret].
    rewrite <- !app_assoc. reflexivity.
Qed.

(** Case analysis over the paths of [send] run from state [s]: the
    single-call imports are split in source order, each failure giving
    one exit; the two loops are replaced by their outcomes.  The goal is
    abstracted over the result first, so that only the run of [send] is
    evaluated.  Goals come innermost path first: normal end, fatal read,
    read still going on, then the failure exits from the last import
    back to the first. *)
Ltac send_cases closed e s :=
  let Q := fresh "Q" in
  let HQ := fresh "HQ" in
  pattern (exports_pack_name_api_send closed e s);
  match goal with |- ?P _ => remember P as Q eqn:HQ end;
  destruct e as [b1 b2 b3 b4 b5 b6 b7 b8 b9 b10 b11 b12 b13 fa sc b14 b15 ra];
  unfold exports_pack_name_api_send;
  cbn [fields_from_list_ok set_method_ok set_path_with_query_ok set_scheme_ok
       set_authority_ok outgoing_request_body_ok outgoing_body_write_ok
       blocking_write_and_flush_ok outgoing_body_finish_ok
       set_connect_timeout_ok set_first_byte_timeout_ok
       set_between_bytes_timeout_ok handle_ok future_answers status_code
       consume_ok incoming_body_stream_ok read_answers] in *;
  (destruct b1; [ | cbn -[sprintf_count] ];
  [ destruct b2; [ | cbn -[sprintf_count] ];
  [ destruct b3; [ | cbn -[sprintf_count] ];
  [ destruct b4; [ | cbn -[sprintf_count] ];
  [ destruct b5; [ | cbn -[sprintf_count] ];
  [ destruct b6; [ | cbn -[sprintf_count] ];
  [ destruct b7; [ | cbn -[sprintf_count] ];
  [ destruct b8; [ | cbn -[sprintf_count] ];
  [ destruct b9; [ | cbn -[sprintf_count] ];
  [ destruct b10; [ | cbn -[sprintf_count] ];
  [ destruct b11; [ | cbn -[sprintf_count] ];
  [ destruct b12; [ | cbn -[sprintf_count] ];
  [ destruct b13; [ | cbn -[sprintf_count] ];
  [ cbn -[sprintf_count await_response read_body];
    destruct (future_answers_cases fa) as [(n & r & frest & ->) | (n & ->)];
    [ unfold bind at 1; rewrite await_response_resolved;
      destruct (got_response r) eqn:Hgot; [ | cbn -[sprintf_count polling] ];
      [ cbn -[sprintf_count polling read_body];
        destruct b14; [ | cbn -[sprintf_count polling] ];
        [ destruct b15; [ | cbn -[sprintf_count polling] ];
          [ cbn -[sprintf_count polling read_body];
            destruct (read_answers_cases ra)
              as [(chunks & tag & rrest & ->) | (chunks & ->)];
            [ unfold bind at 1; rewrite read_body_ended;
              destruct (Z.eqb_spec tag closed) as [-> | Hne];
              cbn -[sprintf_count polling reading]
            | unfold bind at 1; rewrite read_body_unended;
              cbn -[sprintf_count polling reading] ]
          | ]
        | ]
      | ]
    | unfold bind at 1; rewrite await_response_unresolved;
      cbn -[sprintf_count polling] ]
  | ] | ] | ] | ] | ] | ] | ] | ] | ] | ] | ] | ] | ]);
  subst Q; cbv beta iota delta [set_ret return_ pending pure].

Lemma polling_keeps_stage (n : nat) :
  fold_left advance (polling n) (at_stage 15) = at_stage 15.
Proof. induction n as [| n IH]; [reflexivity | exact IH]. Qed.

Lemma reading_chunks_keeps_stage (chunks : list string)
    (rs : list read_result) :
  fold_left advance (reading (map read_chunk chunks ++ rs)) (at_stage 19)
  = fold_left advance (reading rs) (at_stage 19).
Proof. induction chunks as [| c chunks IH]; [reflexivity | exact IH]. Qed.

Lemma reading_only_chunks_keeps_stage (chunks : list string) :
  fold_left advance (reading (map read_chunk chunks)) (at_stage 19)
  = at_stage 19.
Proof. induction chunks as [| c chunks IH]; [reflexivity | exact IH]. Qed.

Ltac in_order_case Hgot :=
  unfold order_state;
  repeat first
    [ rewrite fold_left_app
    | rewrite polling_keeps_stage
    | rewrite reading_chunks_keeps_stage
    | rewrite reading_only_chunks_keeps_stage
    | rewrite Hgot
    | progress cbn -[polling reading sprintf_count] ].

Lemma send_order_state (closed : Z) (e : env) (t : Z) :
  order_state
    (trace (state_of (exports_pack_name_api_send closed e (entry t))))
  <> out_of_order.
Proof.
  send_cases closed e (entry t).
  all: cbn [trace state_of].
  all: in_order_case Hgot.
  all: discriminate.
Qed.

Lemma order_state_snoc (t : list event) (e : event) :
  order_state (t ++ [e]) = advance (order_state t) e.
Proof. unfold order_state. rewrite fold_left_app. reflexivity. Qed.

Lemma final_answer_unstaged (ev : event) :
  stage (fst ev) = None -> final_answer ev = false.
Proof. unfold final_answer. intros ->. reflexivity. Qed.

(** Adding one event at the end of a trace that respects the order. *)
Lemma steps_respected_snoc (t : list event) (e : event) :
  steps_respected t ->
  (forall c,
      stage (fst e) = Some c ->
      (forall ev n, In ev t -> stage (fst ev) = Some n -> (n <= c)%nat)
      /\ (forall n,
             (n < c)%nat ->
             exists ev,
               In ev t /\ stage (fst ev) = Some n /\ passes ev = true)
      /\ (forall ev, In ev t -> final_answer ev = false)) ->
  steps_respected (t ++ [e]).
Proof.
  intros Hresp He l1 ev l2 n Heq Hn.
  destruct l2 as [| x l2 _] using rev_ind.
  - apply app_inj_tail in Heq as [<- <-]. exact (He n Hn).
  - change (l1 ++ ev :: l2 ++ [x]) with (l1 ++ (ev :: l2) ++ [x]) in Heq.
    rewrite app_assoc in Heq.
    apply app_inj_tail in Heq as [-> <-].
    exact (Hresp l1 ev l2 n eq_refl Hn).
Qed.

(** What the three states of [order_state] say about a trace. *)
Lemma order_state_sound (t : list event) :
  match order_state t with
  | at_stage c =>
      (forall ev n, In ev t -> stage (fst ev) = Some n -> (n <= c)%nat)
      /\ (forall n,
             (n < c)%nat ->
             exists ev,
               In ev t /\ stage (fst ev) = Some n /\ passes ev = true)
      /\ (forall ev, In ev t -> final_answer ev = false)
      /\ steps_respected t
  | ended => steps_respected t
  | out_of_order => True
  end.
Proof.
  induction t as [| e t IH] using rev_ind.
  - cbn. split; [| split; [| split]].
    + intros ev n [].
    + intros n Hn. lia.
    + intros ev [].
    + intros l1 ev l2 n Heq. destruct l1; discriminate.
  - rewrite order_state_snoc.
    destruct (order_state t) as [c | |]; cbn [advance]; [| | exact I].
    + destruct IH as (Hle & Hdone & Hgo & Hresp).
      destruct (stage (fst e)) as [n |] eqn:En.
      * destruct (Nat.eqb_spec n c) as [-> | Hne]; [| exact I].
        assert (Hsnoc : steps_respected (t ++ [e])).
        { apply steps_respected_snoc; [exact Hresp |].
          intros c' Hc'. rewrite En in Hc'. injection Hc' as <-. auto. }
        destruct (final_answer e) eqn:Ef; [exact Hsnoc |].
        destruct (passes e) eqn:Ep.
        -- split; [| split; [| split]]; [| | | exact Hsnoc].
           ++ intros ev n Hin Hn. apply in_app_or in Hin as [Hin | [<- | []]].
              ** specialize (Hle ev n Hin Hn). lia.
              ** rewrite En in Hn. injection Hn as <-. lia.
           ++ intros n Hn. destruct (Nat.eq_dec n c) as [-> | Hnc].
              ** exists e. split; [apply in_or_app; right; now left | auto].
              ** destruct (Hdone n ltac:(lia)) as (ev & Hin & Hev).
                 exists ev. split; [apply in_or_app; now left | exact Hev].
           ++ intros ev Hin. apply in_app_or in Hin as [Hin | [<- | []]];
                auto.
        -- split; [| split; [| split]]; [| | | exact Hsnoc].
           ++ intros ev n Hin Hn. apply in_app_or in Hin as [Hin | [<- | []]].
              ** exact (Hle ev n Hin Hn).
              ** rewrite En in Hn. injection Hn as <-. lia.
           ++ intros n Hn. destruct (Hdone n Hn) as (ev & Hin & Hev).
              exists ev. split; [apply in_or_app; now left | exact Hev].
           ++ intros ev Hin. apply in_app_or in Hin as [Hin | [<- | []]];
                auto.
      * assert (Hsnoc : steps_respected (t ++ [e])).
        { apply steps_respected_snoc; [exact Hresp |].
          intros c' Hc'. rewrite En in Hc'. discriminate Hc'. }
        split; [| split; [| split]]; [| | | exact Hsnoc].
        -- intros ev n Hin Hn. apply in_app_or in Hin as [Hin | [<- | []]].
           ++ exact (Hle ev n Hin Hn).
           ++ rewrite En in Hn. discriminate Hn.
        -- intros n Hn. destruct (Hdone n Hn) as (ev & Hin & Hev).
           exists ev. split; [apply in_or_app; now left | exact Hev].
        -- intros ev Hin. apply in_app_or in Hin as [Hin | [<- | []]].
           ++ exact (Hgo ev Hin).
           ++ apply final_answer_unstaged. exact En.
    + destruct (stage (fst e)) as [n |] eqn:En; [exact I |].
      apply steps_respected_snoc; [exact IH |].
      intros c' Hc'. rewrite En in Hc'. discriminate Hc'.
Qed.

(** The places refine the steps: an import with a place belongs to a
    step, and a later place never belongs to an earlier step. *)
Lemma stage_refines_steps (f g : import) (n m : nat) :
  stage f = Some n -> stage g = Some m -> (n <= m)%nat ->
  exists st st',
    step_of f = Some st /\ step_of g = Some st'
    /\ (position st <= position st')%nat.
Proof.
  intros Hf Hg Hle.
  destruct f; cbn in Hf; try discriminate Hf; injection Hf as <-;
    destruct g; cbn in Hg; try discriminate Hg; injection Hg as <-;
    try lia; do 2 eexists; (split; [reflexivity |]);
    (split; [reflexivity |]); cbn; lia.
Qed.

Lemma steps_of_app (t1 t2 : list event) :
  steps_of (t1 ++ t2) = steps_of t1 ++ steps_of t2.
Proof. unfold steps_of. apply flat_map_app. Qed.

Lemma steps_of_polling (n : nat) :
  steps_of (polling n) = repeat poll_loop (3 * n).
Proof.
  induction n as [| n IH]; [reflexivity |].
  replace (3 * S n)%nat with (3 + 3 * n)%nat by lia.
  cbn [polling]. unfold steps_of in *. cbn. rewrite IH. reflexivity.
Qed.

Lemma steps_of_reading (rs : list read_result) :
  steps_of (reading rs) = repeat stream_body (List.length rs).
Proof.
  induction rs as [| r rs IH]; [reflexivity |].
  cbn [List.length repeat]. rewrite <- IH. reflexivity.
Qed.

Lemma chunks_read_app (t1 t2 : list event) :
  chunks_read (t1 ++ t2) = chunks_read t1 ++ chunks_read t2.
Proof.
  induction t1 as [| [f a] t1 IH]; [reflexivity |].
  destruct a as [| b | r | [c | tag] | st]; cbn; rewrite IH; reflexivity.
Qed.

Lemma chunks_read_polling (n : nat) : chunks_read (polling n) = [].
Proof. induction n as [| n IH]; [reflexivity | exact IH]. Qed.

Lemma chunks_read_reading (chunks : list string) (tag : Z) :
  chunks_read (reading (map read_chunk chunks ++ [read_error tag])) = chunks.
Proof.
  induction chunks as [| c chunks IH]; [reflexivity |].
  cbn. f_equal. exact IH.
Qed.

Lemma reads_of_app (t1 t2 : list event) :
  reads_of (t1 ++ t2) = reads_of t1 ++ reads_of t2.
Proof.
  induction t1 as [| [f a] t1 IH]; [reflexivity |].
  destruct a; cbn; rewrite IH; reflexivity.
Qed.

Lemma reads_of_polling (n : nat) : reads_of (polling n) = [].
Proof. induction n as [| n IH]; [reflexivity | exact IH]. Qed.

Lemma reads_of_reading (rs : list read_result) : reads_of (reading rs) = rs.
Proof.
  induction rs as [| r rs IH]; [reflexivity |].
  cbn. f_equal. exact IH.
Qed.

Lemma unresolved_not_resolved (n n' : nat) (r : future_result)
    (rest : list (option future_result)) :
  repeat None n <> repeat None n' ++ Some r :: rest.
Proof.
  revert n'. induction n as [| n IH]; intros [| n'] H; try discriminate.
  injection H as H. exact (IH n' H).
Qed.

Lemma unended_not_ended (chunks chunks' : list string) (tag : Z)
    (rest : list read_result) :
  map read_chunk chunks <> map read_chunk chunks' ++ read_error tag :: rest.
Proof.
  revert chunks'. induction chunks as [| c chunks IH]; intros [| c' chunks'] H;
    try discriminate.
  injection H as _ H. exact (IH chunks' H).
Qed.

(** *** Handles along a trace *)

Lemma held_after_app (t1 t2 : list event) (held : list handle) :
  held_after (t1 ++ t2) held
  = match held_after t1 held with
    | Some held' => held_after t2 held'
    | None => None
    end.
Proof.
  revert held. induction t1 as [| e t1 IH]; intros held; [reflexivity |].
  cbn [app held_after]. destruct (give_up_handles (releases e) held); auto.
Qed.

Lemma held_after_polling (n : nat) (held : list handle) :
  held_after (polling n) held = Some held.
Proof. induction n as [| n IH]; [reflexivity | exact IH]. Qed.

Lemma held_after_reading (rs : list read_result) (held : list handle) :
  held_after (reading rs) held = Some held.
Proof.
  induction rs as [| r rs IH]; [reflexivity |].
  destruct r; exact IH.
Qed.

Ltac in_error_messages :=
  unfold error_messages; repeat first [left; reflexivity | right].

(** C8: every export other than [add] leaves the counter [total] as it
    was: [get()] hands back [total] and changes nothing, so two calls of
    [get()] in a row return the same value, and [send()], which only
    reads [total] to format the request body, leaves it unchanged
    whatever the environment answers. *)
Theorem get_and_send_leave_total_unchanged :
  (forall s : state, exports_pack_name_api_get s = Next (total s) s)
  /\ (forall s : state,
         (v1 <- exports_pack_name_api_get ;;
          v2 <- exports_pack_name_api_get ;;
          pure (v1, v2)) s
         = Next (total s, total s) s)
  /\ (forall (closed : Z) (e : env) (s : state),
         total (state_of (exports_pack_name_api_send closed e s)) = total s)
  /\ (forall s : CDefault.state,
         snd (CDefault.exports_pack_name_api_get s) = s)
  /\ (forall s : CAppComponent.state,
         snd (CAppComponent.exports_component_name_exports_component_name_api_get
                s) = s).
Proof.
  split; [reflexivity |]. split; [reflexivity |].
  split; [| split; reflexivity].
  intros closed e [t0 ret0 trace0].
  send_cases closed e {| total := t0; ret := ret0; trace := trace0 |}; reflexivity.
Qed.


Lemma resolved_inj (n n' : nat) (r r' : future_result)
    (rest rest' : list (option future_result)) :
  repeat None n ++ Some r :: rest = repeat None n' ++ Some r' :: rest' ->
  n = n' /\ r = r' /\ rest = rest'.
Proof.
  revert n'. induction n as [| n IH]; intros [| n'] H; try discriminate.
  - injection H as -> ->. auto.
  - injection H as H. destruct (IH n' H) as (-> & -> & ->). auto.
Qed.

Lemma ended_inj (chunks chunks' : list string) (tag tag' : Z)
    (rest rest' : list read_result) :
  map read_chunk chunks ++ read_error tag :: rest
  = map read_chunk chunks' ++ read_error tag' :: rest' ->
  chunks = chunks' /\ tag = tag' /\ rest = rest'.
Proof.
  revert chunks'. induction chunks as [| c chunks IH]; intros [| c' chunks'] H;
    try discriminate.
  - injection H as -> ->. auto.
  - injection H as -> H. destruct (IH chunks' H) as (-> & -> & ->). auto.
Qed.

(** C4, as stated, fails: while the future of the response is not
    ready, [send()] goes on polling and hands nothing back; after three
    rounds, and after any number of them, it is still in the loop with
    [*ret] unset. *)
Lemma send_keeps_polling_unready_future :
  finish (exports_pack_name_api_send 1 (unanswered 3) (entry 0)) = None
  /\ ret (state_of (exports_pack_name_api_send 1 (unanswered 3) (entry 0)))
     = None
  /\ (forall n : nat,
         finish (exports_pack_name_api_send 1 (unanswered n) (entry 0))
         = None)
  /\ ~ (forall e : env,
           exists s',
             finish (exports_pack_name_api_send 1 e (entry 0)) = Some s').
Proof.
  assert (H : forall n : nat,
             finish (exports_pack_name_api_send 1 (unanswered n) (entry 0))
             = None).
  { intros n. unfold exports_pack_name_api_send, unanswered.
    cbn -[sprintf_count polling reading await_response read_body].
    unfold bind at 1. rewrite await_response_unresolved. reflexivity. }
  split; [apply H |]. split; [reflexivity |]. split; [exact H |].
  intros Hall. destruct (Hall (unanswered 3)) as (s' & Hs').
  rewrite H in Hs'. discriminate Hs'.
Qed.

(** C4 (amended): with its allocations succeeding, once the environment
    has resolved the future of the response and ended the body stream,
    [send()] returns one of two things in [*ret].  When every import
    succeeds, the future yields a response and the stream ends with
    closed, it reaches its end with the response body, the
    concatenation in read order of the chunks read until the stream
    reported closed.  In every other case it leaves by a [return;] with
    one of the error messages. *)
Theorem send_returns_body_or_error (closed : Z) (e : env) (t : Z)
    (polls : nat) (res : future_result)
    (later : list (option future_result))
    (body : list string) (err : Z) (unread : list read_result)
    (Hfuture : future_answers e = repeat None polls ++ Some res :: later)
    (Hreads : read_answers e
              = map read_chunk body ++ read_error err :: unread) :
  if calls_succeed e && got_response res && Z.eqb err closed
  then exists s',
         exports_pack_name_api_send closed e (entry t) = Next tt s'
         /\ ret s' = Some (join body)
         /\ chunks_read (trace s') = body
  else exists s' msg,
         exports_pack_name_api_send closed e (entry t) = Returned s'
         /\ ret s' = Some msg
         /\ In msg error_messages.
Proof.
  revert Hfuture Hreads.
  send_cases closed e (entry t); unfold calls_succeed;
    cbn -[sprintf_count polling reading error_messages];
    intros Hfuture Hreads.
  (* the body has been read to its end *)
  1: { apply resolved_inj in Hfuture as (-> & -> & ->).
       apply ended_inj in Hreads as (-> & -> & ->).
       rewrite Hgot, Z.eqb_refl. cbn [andb].
       eexists. split; [reflexivity |]. split; [reflexivity |].
       cbn -[polling reading].
       rewrite !chunks_read_app, chunks_read_polling, chunks_read_reading.
       cbn. rewrite !app_nil_r. reflexivity. }
  (* a fatal stream error *)
  1: { apply resolved_inj in Hfuture as (-> & -> & ->).
       apply ended_inj in Hreads as (-> & -> & ->).
       apply Z.eqb_neq in Hne. rewrite Hgot, Hne. cbn [andb].
       do 2 eexists. split; [reflexivity |]. split; [reflexivity |].
       in_error_messages. }
  (* the answers of the environment are used up: excluded *)
  1: destruct (unended_not_ended _ _ _ _ Hreads).
  4: destruct (unresolved_not_resolved _ _ _ _ Hfuture).
  (* the future yields no response *)
  3: { apply resolved_inj in Hfuture as (-> & -> & ->).
       rewrite Hgot, andb_false_r. cbn [andb].
       do 2 eexists. split; [reflexivity |]. split; [reflexivity |].
       destruct (negb (is_err res) && ok_is_err res); in_error_messages. }
  (* an import with a single call site fails *)
  all: rewrite ?andb_false_r; cbn [andb].
  all: do 2 eexists; split; [reflexivity |]; split; [reflexivity |].
  all: in_error_messages.
Qed.

Lemma send_returns_body_or_error_witness :
  (exists s',
      exports_pack_name_api_send 1 (serving ["he"; "llo"] 1) (entry 5)
      = Next tt s'
      /\ ret s' = Some "hello"%string)
  /\ (exists s' msg,
         exports_pack_name_api_send 1
           (resolving 2 {| is_err := true; ok_is_err := false; err_tag := 0 |})
           (entry 5) = Returned s'
         /\ ret s' = Some msg
         /\ In msg error_messages).
Proof.
  split.
  - destruct (send_returns_body_or_error 1 (serving ["he"; "llo"] 1) 5
                0 {| is_err := false; ok_is_err := false; err_tag := 0 |} []
                ["he"; "llo"] 1 [] eq_refl eq_refl) as (s' & H1 & H2 & _).
    exists s'. split; assumption.
  - exact (send_returns_body_or_error 1
             (resolving 2
                {| is_err := true; ok_is_err := false; err_tag := 0 |})
             5 2 {| is_err := true; ok_is_err := false; err_tag := 0 |} []
             [] 1 [] eq_refl eq_refl).
Defined.

(** C3: in the read loop of [send()], reached with a response in hand,
    a stream error tagged closed ends the loop and the chunks read so
    far are returned as the body; an error with any other tag is fatal:
    no further read is made, the stream, the body and the response are
    dropped and an error string is returned. *)
Theorem closed_is_eof_other_errors_fatal (closed : Z) (e : env) (t : Z)
    (polls : nat) (res : future_result)
    (later : list (option future_result))
    (body : list string) (err : Z) (unread : list read_result)
    (Hcalls : calls_succeed e = true)
    (Hfuture : future_answers e = repeat None polls ++ Some res :: later)
    (Hresponse : got_response res = true)
    (Hreads : read_answers e
              = map read_chunk body ++ read_error err :: unread) :
  (err = closed ->
   exists s',
     exports_pack_name_api_send closed e (entry t) = Next tt s'
     /\ ret s' = Some (join body)
     /\ reads_of (trace s') = map read_chunk body ++ [read_error err])
  /\ (err <> closed ->
      exists s' before,
        exports_pack_name_api_send closed e (entry t) = Returned s'
        /\ ret s' = Some "Failed to read from body stream"%string
        /\ reads_of (trace s') = map read_chunk body ++ [read_error err]
        /\ trace s'
           = before
             ++ [(wasi_io_streams_input_stream_drop_own, returned_void);
                 (wasi_http_types_incoming_body_drop_own, returned_void);
                 (wasi_http_types_incoming_response_drop_own,
                  returned_void)]).
Proof.
  revert Hcalls Hfuture Hreads.
  send_cases closed e (entry t); unfold calls_succeed; cbn;
    intros Hcalls Hfuture Hreads; try discriminate.
  - (* closed *)
    apply resolved_inj in Hfuture as (-> & -> & ->).
    apply ended_inj in Hreads as (-> & -> & ->).
    split; [| intros Hne; now destruct Hne].
    intros _. eexists. split; [reflexivity |]. split; [reflexivity |].
    cbn -[polling reading].
    rewrite !reads_of_app, reads_of_polling, reads_of_reading.
    cbn. rewrite !app_nil_r. reflexivity.
  - (* any other tag *)
    apply resolved_inj in Hfuture as (-> & -> & ->).
    apply ended_inj in Hreads as (-> & -> & ->).
    split; [intros Heq; now destruct (Hne Heq) |].
    intros _. eexists. eexists. split; [reflexivity |].
    split; [reflexivity |]. split.
    + cbn -[polling reading].
      rewrite !reads_of_app, reads_of_polling, reads_of_reading.
      cbn. rewrite !app_nil_r. reflexivity.
    + cbn [trace]. rewrite !app_comm_cons, !app_assoc. reflexivity.
  - (* the stream never ends *)
    destruct (unended_not_ended _ _ _ _ Hreads).
  - (* no response *)
    apply resolved_inj in Hfuture as (-> & -> & ->). congruence.
  - destruct (unresolved_not_resolved _ _ _ _ Hfuture).
Qed.

Lemma closed_is_eof_other_errors_fatal_witness :
  (exists s',
      exports_pack_name_api_send 1 (serving ["he"; "llo"] 1) (entry 5)
      = Next tt s'
      /\ ret s' = Some "hello"%string)
  /\ (exists s',
         exports_pack_name_api_send 1 (serving ["he"; "llo"] 0) (entry 5)
         = Returned s'
         /\ ret s' = Some "Failed to read from body stream"%string).
Proof.
  split.
  - destruct (closed_is_eof_other_errors_fatal 1 (serving ["he"; "llo"] 1) 5
                0 {| is_err := false; ok_is_err := false; err_tag := 0 |} []
                ["he"; "llo"] 1 []
                eq_refl eq_refl eq_refl eq_refl) as [H _].
    destruct (H eq_refl) as (s' & H1 & H2 & _).
    exists s'. split; assumption.
  - destruct (closed_is_eof_other_errors_fatal 1 (serving ["he"; "llo"] 0) 5
                0 {| is_err := false; ok_is_err := false; err_tag := 0 |} []
                ["he"; "llo"] 0 []
                eq_refl eq_refl eq_refl eq_refl) as [_ H].
    destruct H as (s' & before & H1 & H2 & _); [discriminate |].
    exists s'. split; assumption.
Defined.

(** C5: the import calls of [send()] keep to the order construct
    request, set method, path, scheme, authority, open the body stream,
    write the body, finish the body, set the timeouts, dispatch, poll
    for the response, read the status, stream the body.  In every run,
    when an import is called, every import called before has its place
    at or before this one, none of them has failed, and at every
    earlier place an import has been called and has succeeded, each
    import of a step made of several included; the places follow the
    order of the steps.  When nothing fails, [send()] goes through all
    the steps, in this order. *)
Theorem send_steps_in_order (closed : Z) (e : env) (t : Z) :
  steps_respected
    (trace (state_of (exports_pack_name_api_send closed e (entry t))))
  /\ (forall (f g : import) (n m : nat),
         stage f = Some n -> stage g = Some m -> (n <= m)%nat ->
         exists st st',
           step_of f = Some st /\ step_of g = Some st'
           /\ (position st <= position st')%nat)
  /\ (forall (polls : nat) (res : future_result)
             (later : list (option future_result))
             (body : list string) (unread : list read_result),
         calls_succeed e = true ->
         future_answers e = repeat None polls ++ Some res :: later ->
         got_response res = true ->
         read_answers e
         = map read_chunk body ++ read_error closed :: unread ->
         exists s',
           exports_pack_name_api_send closed e (entry t) = Next tt s'
           /\ steps_of (trace s')
              = [ construct_request; construct_request; set_method;
                  set_path; set_scheme; set_authority; open_body_stream;
                  open_body_stream; write_body; finish_body; set_timeouts;
                  set_timeouts; set_timeouts; set_timeouts; dispatch ]
                ++ repeat poll_loop (3 * polls)
                ++ [poll_loop; read_status; stream_body; stream_body]
                ++ repeat stream_body (S (List.length body))).
Proof.
  split; [| split].
  - pose proof (send_order_state closed e t) as H.
    pose proof (order_state_sound
                  (trace (state_of
                     (exports_pack_name_api_send closed e (entry t)))))
      as Hs.
    destruct (order_state _) as [c | |].
    + apply Hs.
    + exact Hs.
    + now destruct H.
  - exact stage_refines_steps.
  - intros polls res later body unread Hcalls Hfuture Hres Hreads.
    revert Hcalls Hfuture Hreads.
    send_cases closed e (entry t); unfold calls_succeed;
      cbn -[sprintf_count polling reading Nat.mul repeat];
      intros Hcalls Hfuture Hreads; try discriminate Hcalls.
    + apply resolved_inj in Hfuture as (-> & -> & ->).
      apply ended_inj in Hreads as (-> & _ & ->).
      eexists. split; [reflexivity |]. cbn [trace].
      change (?a :: ?b :: ?c :: ?d :: ?e0 :: ?f :: ?g :: ?h :: ?i :: ?j
                :: ?k :: ?l :: ?m :: ?n0 :: ?o :: ?p :: ?q)
        with ([a; b; c; d; e0; f; g; h; i; j; k; l; m; n0; o; p] ++ q).
      rewrite !steps_of_app, steps_of_polling, steps_of_reading.
      rewrite length_app, length_map. cbn [List.length].
      replace (List.length body + 1)%nat with (S (List.length body)) by lia.
      cbn -[repeat Nat.mul]. rewrite !app_nil_r, <- !app_assoc.
      reflexivity.
    + apply resolved_inj in Hfuture as (-> & -> & ->).
      apply ended_inj in Hreads as (_ & Htag & _). now destruct Hne.
    + destruct (unended_not_ended _ _ _ _ Hreads).
    + apply resolved_inj in Hfuture as (-> & -> & ->). congruence.
    + destruct (unresolved_not_resolved _ _ _ _ Hfuture).
Qed.

Lemma send_steps_in_order_witness :
  exists s',
    exports_pack_name_api_send 1 (serving ["he"; "llo"] 1) (entry 5)
    = Next tt s'
    /\ steps_of (trace s')
       = [ construct_request; construct_request; set_method; set_path;
           set_scheme; set_authority; open_body_stream; open_body_stream;
           write_body; finish_body; set_timeouts; set_timeouts;
           set_timeouts; set_timeouts; dispatch; poll_loop; read_status;
           stream_body; stream_body; stream_body; stream_body;
           stream_body ].
Proof.
  destruct (send_steps_in_order 1 (serving ["he"; "llo"] 1) 5)
    as (_ & _ & H).
  exact (H 0%nat {| is_err := false; ok_is_err := false; err_tag := 0 |} []
           ["he"; "llo"] [] eq_refl eq_refl eq_refl eq_refl).
Defined.

(** Handles held when [send] hands control back, the payload of a
    stream error apart. *)
Lemma send_held_handles (closed : Z) (e : env) (t : Z) :
  match exports_pack_name_api_send closed e (entry t) with
  | Next _ s' => held_after (trace s') [] = Some [future_response]
  | Returned s' =>
      held_after (trace s') [] = Some []
      \/ (held_after (trace s') [] = Some [future_response]
          /\ exists r,
               In (wasi_http_types_method_future_incoming_response_get,
                   returned_future (Some r)) (trace s')
               /\ got_response r = true)
  | Pending _ => True
  end.
Proof.
  send_cases closed e (entry t); try exact I.
  all: cbn -[polling reading sprintf_count].
  all: try (left; reflexivity).
  all: repeat first
         [ rewrite held_after_app | rewrite held_after_polling
         | rewrite held_after_reading | rewrite Hgot
         | progress cbn -[polling reading sprintf_count] ].
  all: try reflexivity.
  all: try (left; reflexivity).
  all: right; split; [reflexivity |]; exists r; split; [| exact Hgot].
  all: rewrite !in_app_iff; cbn; tauto.
Qed.

(** C2, at the failing input: with every import succeeding, the response
    ready at the first [get] and the body ["ok"] followed by closed,
    [send()] returns the body, and the handle [future_response] acquired
    from [handle] is released by no call: it is still held at the
    end. *)
Theorem send_success_leaves_future_response_held :
  exists s',
    exports_pack_name_api_send 1 (serving ["ok"] 1) (entry 0) = Next tt s'
    /\ ret s' = Some "ok"%string
    /\ In (wasi_http_outgoing_handler_handle, returned_bool true) (trace s')
    /\ existsb (handle_eqb future_response)
         (flat_map releases (trace s')) = false
    /\ held_after (trace s') [] = Some [future_response].
Proof.
  eexists. split; [vm_compute; reflexivity |].
  split; [reflexivity |]. split; [cbn; tauto |].
  split; vm_compute; reflexivity.
Qed.

(** *** Further properties of [send] *)

Lemma failure_polling (closed : Z) (n : nat) (t : list event) :
  existsb (failure closed) (polling n ++ t) = existsb (failure closed) t.
Proof. induction n as [| n IH]; [reflexivity | exact IH]. Qed.

Lemma failure_reading_chunks (closed : Z) (chunks : list string)
    (rs : list read_result) (t : list event) :
  existsb (failure closed) (reading (map read_chunk chunks ++ rs) ++ t)
  = existsb (failure closed) (reading rs ++ t).
Proof. induction chunks as [| c chunks IH]; [reflexivity | exact IH]. Qed.

Lemma after_first_failure_polling (closed : Z) (n : nat) (t : list event) :
  after_first_failure closed (polling n ++ t) = after_first_failure closed t.
Proof. induction n as [| n IH]; [reflexivity | exact IH]. Qed.

Lemma after_first_failure_reading_chunks (closed : Z) (chunks : list string)
    (rs : list read_result) (t : list event) :
  after_first_failure closed (reading (map read_chunk chunks ++ rs) ++ t)
  = after_first_failure closed (reading rs ++ t).
Proof. induction chunks as [| c chunks IH]; [reflexivity | exact IH]. Qed.

Lemma failure_reading_only_chunks (closed : Z) (chunks : list string) :
  existsb (failure closed) (reading (map read_chunk chunks)) = false.
Proof. induction chunks as [| c chunks IH]; [reflexivity | exact IH]. Qed.

Lemma after_first_failure_reading_only_chunks (closed : Z)
    (chunks : list string) :
  after_first_failure closed (reading (map read_chunk chunks)) = [].
Proof. induction chunks as [| c chunks IH]; [reflexivity | exact IH]. Qed.

Lemma failure_polling_only (closed : Z) (n : nat) :
  existsb (failure closed) (polling n) = false.
Proof. induction n as [| n IH]; [reflexivity | exact IH]. Qed.

Lemma after_first_failure_polling_only (closed : Z) (n : nat) :
  after_first_failure closed (polling n) = [].
Proof. induction n as [| n IH]; [reflexivity | exact IH]. Qed.

Ltac flatten_trace :=
  cbn [trace state_of]; rewrite <- ?app_assoc;
  cbn -[polling reading sprintf_count existsb after_first_failure
        held_after calls_to].

(** X1: [send()] aborts at the first failure an import reports ([false]
    from a [bool] import, a future result that is no response, a stream
    error other than closed): every import called after it is a
    [..._drop_own], and [send()] leaves through a [return;] exactly when
    such a failure has been reported. *)
Theorem send_aborts_at_first_failure (closed : Z) (e : env) (t : Z) :
  Forall (fun ev => is_drop_own (fst ev) = true)
    (after_first_failure closed
       (trace (state_of (exports_pack_name_api_send closed e (entry t)))))
  /\ (existsb (failure closed)
        (trace (state_of (exports_pack_name_api_send closed e (entry t))))
      = true
      <-> exists s', exports_pack_name_api_send closed e (entry t)
                     = Returned s').
Proof.
  send_cases closed e (entry t).
  all: flatten_trace.
  all: cbn -[polling reading sprintf_count].
  all: rewrite ?after_first_failure_polling, ?failure_polling,
         ?after_first_failure_polling_only, ?failure_polling_only.
  all: cbn -[polling reading sprintf_count]; rewrite ?Hgot.
  all: cbn -[polling reading sprintf_count].
  all: rewrite ?after_first_failure_reading_chunks, ?failure_reading_chunks,
         ?after_first_failure_reading_only_chunks,
         ?failure_reading_only_chunks.
  all: cbn -[polling sprintf_count]; rewrite ?Z.eqb_refl.
  all: try (apply Z.eqb_neq in Hne; rewrite Hne).
  all: cbn -[polling sprintf_count].
  all: split; [repeat constructor |].
  all: split; intros H; try discriminate H; try reflexivity;
    try (eexists; reflexivity);
    try (destruct H as (s' & H); discriminate H).
Qed.

Lemma send_aborts_at_first_failure_witness :
  exists s',
    exports_pack_name_api_send 1 (serving ["he"] 0) (entry 5) = Returned s'.
Proof.
  apply (send_aborts_at_first_failure 1 (serving ["he"] 0) 5).
  vm_compute. reflexivity.
Defined.

Lemma calls_to_app (p : import -> bool) (t1 t2 : list event) :
  calls_to p (t1 ++ t2) = (calls_to p t1 + calls_to p t2)%nat.
Proof. unfold calls_to. rewrite filter_app, length_app. reflexivity. Qed.

Lemma calls_to_polling (p : import -> bool) (n : nat) :
  calls_to p (polling n)
  = (n * (Nat.b2n (p wasi_http_types_method_future_incoming_response_get)
          + Nat.b2n
              (p wasi_http_types_method_future_incoming_response_subscribe)
          + Nat.b2n (p wasi_io_poll_poll)
          + Nat.b2n (p wasi_io_poll_pollable_drop_own)))%nat.
Proof.
  induction n as [| n IH]; [reflexivity |].
  change (polling (S n)) with (polling 1 ++ polling n).
  rewrite calls_to_app, IH. unfold calls_to. cbn.
  destruct (p wasi_http_types_method_future_incoming_response_get),
    (p wasi_http_types_method_future_incoming_response_subscribe),
    (p wasi_io_poll_poll), (p wasi_io_poll_pollable_drop_own); cbn; lia.
Qed.

Lemma calls_to_reading (p : import -> bool) (rs : list read_result) :
  calls_to p (reading rs)
  = if p (wasi_io_streams_method_input_stream_blocking_read 1024)
    then List.length rs else 0%nat.
Proof.
  unfold calls_to, reading.
  induction rs as [| r rs IH]; cbn.
  - destruct (p _); reflexivity.
  - destruct (p _); cbn; [f_equal |]; exact IH.
Qed.

(** X2: when [send()] returns early without having obtained a response,
    and not because the write of the body has failed (a failed stream
    operation may hand over an error that the model does not follow),
    it holds no handle any more: every handle acquired has been released
    exactly once, the last acquired first. *)
Theorem send_failure_before_response_holds_nothing (closed : Z) (e : env)
    (t : Z) (s' : state)
    (Hreturn : exports_pack_name_api_send closed e (entry t) = Returned s')
    (Hnone : forall r,
        In (wasi_http_types_method_future_incoming_response_get,
            returned_future (Some r)) (trace s') ->
        got_response r = false)
    (Hwritten : forall body_data,
        ~ In (wasi_io_streams_method_output_stream_blocking_write_and_flush
                body_data, returned_bool false) (trace s')) :
  held_after (trace s') [] = Some [].
Proof.
  pose proof (send_held_handles closed e t) as H.
  rewrite Hreturn in H.
  destruct H as [H | (_ & r & Hin & Hr)]; [exact H |].
  rewrite (Hnone r Hin) in Hr. discriminate Hr.
Qed.

Lemma send_failure_before_response_holds_nothing_witness :
  held_after
    (trace (state_of
       (exports_pack_name_api_send 1
          (resolving 2 {| is_err := true; ok_is_err := false; err_tag := 0 |})
          (entry 7))))
    [] = Some [].
Proof.
  apply (send_failure_before_response_holds_nothing 1
           (resolving 2 {| is_err := true; ok_is_err := false; err_tag := 0 |})
           7).
  - vm_compute. reflexivity.
  - intros r Hin. vm_compute in Hin.
    repeat (destruct Hin as [Hin | Hin]; try discriminate Hin).
    + injection Hin as <-. reflexivity.
    + destruct Hin.
  - intros body_data Hin. vm_compute in Hin.
    repeat (destruct Hin as [Hin | Hin]; try discriminate Hin).
    destruct Hin.
Defined.

(** X3: [send()] calls [wasi_http_outgoing_handler_handle] at most
    once, and only right after the whole configuration has succeeded:
    headers, POST, path [/post], HTTPS, authority [httpbin.org], the
    body written from the counter, the body finished and the three
    timeouts of 5000000000 ns. *)
Theorem send_dispatches_configured_request_once (closed : Z) (e : env)
    (t : Z) :
  calls_to is_dispatch
    (trace (state_of (exports_pack_name_api_send closed e (entry t)))) = 0%nat
  \/ exists rest,
       trace (state_of (exports_pack_name_api_send closed e (entry t)))
       = request_setup t
         ++ (wasi_http_outgoing_handler_handle, returned_bool (handle_ok e))
         :: rest
       /\ calls_to is_dispatch rest = 0%nat.
Proof.
  send_cases closed e (entry t).
  all: cbn [trace state_of handle_ok].
  9-20: left; reflexivity.
  all: right; unfold request_setup; cbn [app].
  all: eexists; split; [reflexivity |].
  all: rewrite ?calls_to_app, ?calls_to_polling, ?calls_to_reading.
  all: cbn -[sprintf_count]; lia.
Qed.

(** X4: once the request is sent, if the future answers not-ready
    [polls] times and then yields a result that is no response,
    [send()] returns ["Returned with error"] when [res.is_err] is set
    and ["Returned with error code"] otherwise, after [polls + 1] calls
    of [get] and [polls] calls of [poll], without calling any import
    that reads the response, and holding no handle. *)
Theorem send_reports_failed_future (closed : Z) (e : env) (t : Z)
    (polls : nat) (res : future_result)
    (later : list (option future_result))
    (Hsent : request_sent e = true)
    (Hfuture : future_answers e = repeat None polls ++ Some res :: later)
    (Hfailed : got_response res = false) :
  exists s',
    exports_pack_name_api_send closed e (entry t) = Returned s'
    /\ ret s' = Some (if is_err res then "Returned with error"%string
                      else "Returned with error code"%string)
    /\ calls_to is_future_get (trace s') = S polls
    /\ calls_to is_poll (trace s') = polls
    /\ calls_to is_response_import (trace s') = 0%nat
    /\ held_after (trace s') [] = Some [].
Proof.
  revert Hsent Hfuture.
  send_cases closed e (entry t); unfold request_sent; cbn -[sprintf_count];
    intros Hsent Hfuture; try discriminate Hsent.
  all: try (apply resolved_inj in Hfuture as (-> & -> & ->)).
  all: try congruence.
  - eexists. split; [reflexivity |]. cbn [ret trace].
    split.
    { unfold got_response in Hfailed.
      destruct (is_err res), (ok_is_err res); try discriminate Hfailed;
        reflexivity. }
    split; [| split; [| split]].
    4: { repeat first
           [ rewrite held_after_app | rewrite held_after_polling
           | rewrite Hfailed
           | progress cbn -[polling reading sprintf_count] ].
         reflexivity. }
    all: change (?a :: ?b :: ?c :: ?d :: ?e0 :: ?f :: ?g :: ?h :: ?i :: ?j
                   :: ?k :: ?l :: ?m :: ?n0 :: ?o :: ?p :: ?q)
           with ([a; b; c; d; e0; f; g; h; i; j; k; l; m; n0; o; p] ++ q).
    all: rewrite !calls_to_app, !calls_to_polling.
    all: cbn -[sprintf_count]; lia.
  - destruct (unresolved_not_resolved _ _ _ _ Hfuture).
Qed.

Lemma send_reports_failed_future_witness :
  exists s',
    exports_pack_name_api_send 1
      (resolving 2 {| is_err := false; ok_is_err := true; err_tag := 3 |})
      (entry 7) = Returned s'
    /\ ret s' = Some "Returned with error code"%string.
Proof.
  destruct (send_reports_failed_future 1
              (resolving 2
                 {| is_err := false; ok_is_err := true; err_tag := 3 |})
              7 2 {| is_err := false; ok_is_err := true; err_tag := 3 |} []
              eq_refl eq_refl eq_refl) as (s' & H1 & H2 & _).
  exists s'. split; assumption.
Defined.


(** *** The request body *)

Lemma to_lu_next_digit (q : positive) (r : N) :
  (r < 10)%N ->
  Decimal.nb_digits (DecimalPos.Unsigned.to_lu (10 * N.pos q + r))
  = S (Decimal.nb_digits (DecimalPos.Unsigned.to_lu (N.pos q))).
Proof.
  intros Hr.
  assert (Hcases : (r = 0 \/ r = 1 \/ r = 2 \/ r = 3 \/ r = 4 \/ r = 5
                    \/ r = 6 \/ r = 7 \/ r = 8 \/ r = 9)%N) by lia.
  pose proof (DecimalPos.Unsigned.to_ldec_tenfold q) as H0.
  destruct Hcases as [-> | [-> | [-> | [-> | [-> | [-> | [-> | [-> | [-> | ->]]]]]]]]].
  - rewrite N.add_0_r, H0. reflexivity.
  - replace (10 * N.pos q + 1)%N with (N.succ (10 * N.pos q)) by lia.
    rewrite !DecimalPos.Unsigned.to_lu_succ, H0. reflexivity.
  - replace (10 * N.pos q + 2)%N with (N.succ (N.succ (10 * N.pos q))) by lia.
    rewrite !DecimalPos.Unsigned.to_lu_succ, H0. reflexivity.
  - replace (10 * N.pos q + 3)%N
      with (N.succ (N.succ (N.succ (10 * N.pos q)))) by lia.
    rewrite !DecimalPos.Unsigned.to_lu_succ, H0. reflexivity.
  - replace (10 * N.pos q + 4)%N
      with (N.succ (N.succ (N.succ (N.succ (10 * N.pos q))))) by lia.
    rewrite !DecimalPos.Unsigned.to_lu_succ, H0. reflexivity.
  - replace (10 * N.pos q + 5)%N
      with (N.succ (N.succ (N.succ (N.succ (N.succ (10 * N.pos q)))))) by lia.
    rewrite !DecimalPos.Unsigned.to_lu_succ, H0. reflexivity.
  - replace (10 * N.pos q + 6)%N
      with (N.succ (N.succ (N.succ (N.succ (N.succ (N.succ (10 * N.pos q)))))))
      by lia.
    rewrite !DecimalPos.Unsigned.to_lu_succ, H0. reflexivity.
  - replace (10 * N.pos q + 7)%N
      with (N.succ (N.succ (N.succ (N.succ (N.succ (N.succ
             (N.succ (10 * N.pos q)))))))) by lia.
    rewrite !DecimalPos.Unsigned.to_lu_succ, H0. reflexivity.
  - replace (10 * N.pos q + 8)%N
      with (N.succ (N.succ (N.succ (N.succ (N.succ (N.succ
             (N.succ (N.succ (10 * N.pos q))))))))) by lia.
    rewrite !DecimalPos.Unsigned.to_lu_succ, H0. reflexivity.
  - replace (10 * N.pos q + 9)%N
      with (N.succ (N.succ (N.succ (N.succ (N.succ (N.succ
             (N.succ (N.succ (N.succ (10 * N.pos q)))))))))) by lia.
    rewrite !DecimalPos.Unsigned.to_lu_succ, H0. reflexivity.
Qed.

Lemma to_lu_digits_bound (k : nat) (n : N) :
  (0 < n)%N -> (n < 10 ^ N.of_nat k)%N ->
  (Decimal.nb_digits (DecimalPos.Unsigned.to_lu n) <= k)%nat.
Proof.
  revert n. induction k as [| k IH]; intros n Hpos Hlt.
  - simpl in Hlt. lia.
  - rewrite Nnat.Nat2N.inj_succ, N.pow_succ_r' in Hlt.
    pose proof (N.div_mod n 10 ltac:(lia)) as Hdm.
    pose proof (N.mod_lt n 10 ltac:(lia)) as Hr.
    destruct (n / 10)%N as [| q] eqn:Eq.
    + rewrite N.mul_0_r, N.add_0_l in Hdm.
      assert (Hcases : (n = 1 \/ n = 2 \/ n = 3 \/ n = 4 \/ n = 5
                        \/ n = 6 \/ n = 7 \/ n = 8 \/ n = 9)%N) by lia.
      destruct Hcases as [-> | [-> | [-> | [-> | [-> | [-> | [-> | [-> | ->]]]]]]]];
        simpl; lia.
    + rewrite Hdm, to_lu_next_digit by exact Hr.
      apply le_n_S, IH; [lia |].
      remember (10 ^ N.of_nat k)%N as bound.
      remember (n mod 10)%N as r.
      lia.
Qed.

Lemma string_length_append (a b : string) :
  String.length (a ++ b)%string = (String.length a + String.length b)%nat.
Proof. induction a as [| c a IH]; simpl; [reflexivity | now rewrite IH]. Qed.

Lemma string_of_uint_length (d : Decimal.uint) :
  String.length (NilEmpty.string_of_uint d) = Decimal.nb_digits d.
Proof. induction d; simpl; congruence. Qed.

Lemma string_of_uint_strlen (d : Decimal.uint) :
  strlen (NilEmpty.string_of_uint d)
  = String.length (NilEmpty.string_of_uint d).
Proof. induction d; simpl; congruence. Qed.

Lemma strlen_append (a b : string) :
  strlen a = String.length a ->
  strlen (a ++ b)%string = (String.length a + strlen b)%nat.
Proof.
  induction a as [| c a IH]; simpl; [reflexivity |].
  destruct (Ascii.eqb c "000"); [discriminate |].
  intros H. injection H as H. rewrite (IH H). reflexivity.
Qed.

Lemma format_llu_digits (t : Z) :
  format_llu t = NilEmpty.string_of_uint (N.to_uint (Z.to_N t)).
Proof.
  unfold format_llu, NilZero.string_of_uint.
  destruct (N.to_uint (Z.to_N t)) eqn:E; try reflexivity.
  destruct (Z.to_N t); [discriminate E |].
  destruct (DecimalPos.Unsigned.to_uint_nonnil _ E).
Qed.

Lemma format_llu_length (t : Z) :
  is_u64 t -> (1 <= String.length (format_llu t) <= 20)%nat.
Proof.
  intros [Hlo Hhi]. rewrite format_llu_digits, string_of_uint_length.
  destruct (Z.to_N t) as [| p] eqn:E.
  - simpl. lia.
  - unfold N.to_uint, Pos.to_uint. rewrite DecimalFacts.nb_digits_rev.
    change (Pos.to_little_uint p)
      with (DecimalPos.Unsigned.to_lu (N.pos p)).
    split.
    + destruct (Decimal.nb_digits _) eqn:E0; [| lia].
      apply DecimalFacts.nb_digits_0 in E0.
      destruct (DecimalPos.Unsigned.to_uint_nonnil p).
      unfold Pos.to_uint.
      change (Pos.to_little_uint p)
        with (DecimalPos.Unsigned.to_lu (N.pos p)).
      rewrite E0. reflexivity.
    + apply to_lu_digits_bound; [lia |].
      rewrite <- E. unfold UINT64_MODULUS in Hhi.
      change (10 ^ N.of_nat 20)%N with 100000000000000000000%N. lia.
Qed.

(** X5: for every [uint64_t] counter the text [sprintf] writes, at most
    33 bytes, fits with its final NUL the 256 bytes allocated for it,
    and holds no NUL, so that [strlen] gives its whole length as
    [body_data.len]. *)
Theorem request_body_fits_its_buffer (t : Z) (Ht : is_u64 t) :
  (String.length (sprintf_count t) <= 33)%nat
  /\ (String.length (sprintf_count t) + 1 <= 256)%nat
  /\ strlen (sprintf_count t) = String.length (sprintf_count t).
Proof.
  pose proof (format_llu_length t Ht) as Hlen.
  assert (Hl : String.length (sprintf_count t)
               = (13 + String.length (format_llu t))%nat).
  { unfold sprintf_count, double_quote.
    rewrite !string_length_append. simpl. lia. }
  split; [lia |]. split; [lia |].
  unfold sprintf_count, double_quote.
  repeat (rewrite strlen_append by reflexivity).
  rewrite !string_length_append.
  rewrite strlen_append
    by (rewrite format_llu_digits; apply string_of_uint_strlen).
  simpl. lia.
Qed.

Lemma request_body_fits_its_buffer_witness :
  (String.length (sprintf_count 18446744073709551615) <= 33)%nat.
Proof.
  apply (request_body_fits_its_buffer 18446744073709551615).
  unfold is_u64, UINT64_MODULUS. simpl. lia.
Defined.

Lemma string_append_inj_l (a x y : string) :
  (a ++ x)%string = (a ++ y)%string -> x = y.
Proof.
  induction a as [| c a IH]; simpl; [auto |].
  intros H. injection H as H. auto.
Qed.

Lemma string_append_inj_r (x y c : string) :
  (x ++ c)%string = (y ++ c)%string -> x = y.
Proof.
  revert y. induction x as [| a x IH]; intros [| b y] H; simpl in H.
  - reflexivity.
  - apply (f_equal String.length) in H. simpl in H.
    rewrite string_length_append in H. lia.
  - apply (f_equal String.length) in H. simpl in H.
    rewrite string_length_append in H. lia.
  - injection H as -> H. f_equal. exact (IH y H).
Qed.

Lemma string_of_uint_inj (d d' : Decimal.uint) :
  NilEmpty.string_of_uint d = NilEmpty.string_of_uint d' -> d = d'.
Proof.
  intros H. apply (f_equal NilEmpty.uint_of_string) in H.
  rewrite !NilEmpty.usu in H. injection H as H. exact H.
Qed.

(** X6: two different [uint64_t] counters give two different request
    bodies. *)
Theorem request_body_tells_counters_apart (t1 t2 : Z)
    (Ht1 : is_u64 t1) (Ht2 : is_u64 t2) (Hne : t1 <> t2) :
  sprintf_count t1 <> sprintf_count t2.
Proof.
  intros H. unfold sprintf_count in H.
  repeat apply string_append_inj_l in H.
  apply string_append_inj_r in H.
  rewrite !format_llu_digits in H.
  apply string_of_uint_inj, DecimalN.Unsigned.to_uint_inj in H.
  unfold is_u64 in Ht1, Ht2. apply Hne. lia.
Qed.

Lemma request_body_tells_counters_apart_witness :
  sprintf_count 9 <> sprintf_count 10.
Proof.
  apply (request_body_tells_counters_apart 9 10);
    unfold is_u64, UINT64_MODULUS; simpl; lia.
Defined.

(** *** The counter of the HTTP example *)

Lemma adds_run (vs : list Z) (s : state) :
  adds vs s
  = Next tt {| total := fold_left add_u64 vs (total s);
               ret := ret s; trace := trace s |}.
Proof.
  revert s. induction vs as [| v vs IH]; intros s.
  - destruct s; reflexivity.
  - cbn [adds]. unfold bind, exports_pack_name_api_add.
    rewrite IH. reflexivity.
Qed.

Lemma Forall_polling (P : event -> Prop) (n : nat) :
  Forall P (polling 1) -> Forall P (polling n).
Proof.
  intros H. induction n as [| n IH]; [constructor |].
  change (polling (S n)) with (polling 1 ++ polling n).
  apply Forall_app. auto.
Qed.

(** X7: in the HTTP example [add] calls no import and leaves [*ret]
    alone; after [add(v_1)], ..., [add(v_N)] on a fresh instance [get()]
    returns the sum modulo [2^64], and every body [send()] then writes
    is the text formatted from that value. *)
Theorem send_body_carries_the_counter (closed : Z) (e : env)
    (vs : list Z) :
  adds vs (entry 0) = Next tt (entry (sum vs mod 2 ^ 64))
  /\ (adds vs ;; exports_pack_name_api_get) (entry 0)
     = Next (sum vs mod 2 ^ 64) (entry (sum vs mod 2 ^ 64))
  /\ Forall
       (fun ev =>
          match fst ev with
          | wasi_io_streams_method_output_stream_blocking_write_and_flush
              body_data =>
              body_data = sprintf_count (sum vs mod 2 ^ 64)
          | _ => True
          end)
       (trace (state_of ((adds vs ;; exports_pack_name_api_send closed e)
                           (entry 0)))).
Proof.
  assert (Hadds : adds vs (entry 0) = Next tt (entry (sum vs mod 2 ^ 64))).
  { rewrite adds_run. unfold entry. cbn [total ret trace].
    rewrite fold_add_u64_fresh. reflexivity. }
  split; [exact Hadds |].
  split; [unfold bind; rewrite Hadds; reflexivity |].
  unfold bind at 1. rewrite Hadds.
  generalize (sum vs mod 2 ^ 64). intros t.
  send_cases closed e (entry t).
  all: cbn [trace state_of].
  all: repeat first
         [ apply Forall_nil
         | apply Forall_cons; [exact I || reflexivity |]
         | apply Forall_app; split
         | apply Forall_polling
         | apply Forall_forall; intros ev Hin; unfold reading in Hin;
           apply in_map_iff in Hin; destruct Hin as (x & <- & _); exact I ].
Qed.

(** X13: the status code of the response has no influence on what
    [send()] hands back: with any other status, [*ret] is the same and
    [send()] leaves in the same way, so a response with an error status
    has its body returned like any other. *)
Theorem send_ignores_the_status (closed : Z) (e : env) (t : Z) (status : Z) :
  ret (state_of (exports_pack_name_api_send closed (with_status e status)
                   (entry t)))
  = ret (state_of (exports_pack_name_api_send closed e (entry t)))
  /\ outcome_kind (exports_pack_name_api_send closed (with_status e status)
                     (entry t))
     = outcome_kind (exports_pack_name_api_send closed e (entry t)).
Proof.
  send_cases closed e (entry t).
  all: unfold exports_pack_name_api_send, with_status.
  all: cbn -[sprintf_count polling reading await_response read_body].
  all: repeat first
         [ unfold bind at 1; rewrite await_response_resolved, Hgot
         | unfold bind at 1; rewrite await_response_unresolved
         | unfold bind at 1; rewrite read_body_ended
         | unfold bind at 1; rewrite read_body_unended
         | rewrite Z.eqb_refl
         | progress cbn -[sprintf_count polling reading await_response
                          read_body] ].
  all: try (apply Z.eqb_neq in Hne; rewrite Hne).
  all: split; reflexivity.
Qed.

End CExampleHttpProperties.

(** ** The large-allocation fixture *)

Section LargeDynamicMemoryProperties.

Import LargeDynamicMemory.

Lemma iterate_all_allocated (a : allocator) (todo : nat) (i : Z)
    (log : list event) :
  0 <= i ->
  (forall k : nat,
      (Z.to_nat i <= k < Z.to_nat i + todo)%nat -> a k <> None) ->
  iterate a todo i log
  = (log ++ flat_map (iteration a) (seq (Z.to_nat i) todo), returned 0).
Proof.
  revert i log. induction todo as [| todo IH]; intros i log Hi Hall.
  - simpl. rewrite app_nil_r. reflexivity.
  - cbn [iterate seq flat_map]. unfold malloc, iteration at 1.
    destruct (a (Z.to_nat i)) as [c |] eqn:Ea.
    + cbn [option_map load size bytes].
      change ((0 <=? 0) && (0 <? PAGE_SIZE)) with true.
      change ((0 <=? PAGE_SIZE - 1) && (PAGE_SIZE - 1 <? PAGE_SIZE))
        with true.
      cbv iota. rewrite IH.
      * replace (Z.to_nat (i + 1)) with (S (Z.to_nat i)) by lia.
        rewrite Z2Nat.id by exact Hi.
        rewrite <- !app_assoc. reflexivity.
      * lia.
      * intros k Hk. apply Hall. lia.
    + destruct (Hall (Z.to_nat i)); [lia | exact Ea].
Qed.

(** C6, as stated, fails: with an allocator that has memory for 100
    blocks only, the 101st [malloc] hands back [NULL] and [run] reads
    through it instead of returning 0. *)
Lemma run_crashes_when_malloc_fails :
  snd (exports_c_api1_run (exhausted_after 100)) = crashed null_dereference
  /\ snd (exports_c_api1_run (exhausted_after 100)) <> returned 0
  /\ List.length
       (filter (fun ev => match ev with called_malloc _ => true | _ => false end)
          (fst (exports_c_api1_run (exhausted_after 100)))) = 101%nat.
Proof.
  split; [vm_compute; reflexivity |].
  split; [vm_compute; discriminate | vm_compute; reflexivity].
Qed.

(** C6 (amended): when each of the 512 calls of [malloc] succeeds, [run]
    goes through exactly 512 iterations, each allocating one block of
    [1024*1024] bytes and reading its first and its last byte, both
    within the block, and returns 0. *)
Theorem run_completes_when_malloc_succeeds (a : allocator)
    (Halloc : forall k : nat, (k < 512)%nat -> a k <> None) :
  exports_c_api1_run a
  = (flat_map (iteration a) (seq 0 512), returned 0)
  /\ (forall k : nat,
         (k < 512)%nat ->
         exists c,
           iteration a k
           = [ called_malloc (1024 * 1024);
               printed_first (Z.of_nat k) (c 0);
               printed_last (Z.of_nat k) (c (1024 * 1024 - 1));
               called_usleep 5 ]
           /\ load (malloc a k PAGE_SIZE) 0 = inr (c 0)
           /\ load (malloc a k PAGE_SIZE) (PAGE_SIZE - 1)
              = inr (c (1024 * 1024 - 1))).
Proof.
  split.
  - unfold exports_c_api1_run.
    rewrite iterate_all_allocated.
    + reflexivity.
    + lia.
    + intros k Hk. apply Halloc. change (Z.to_nat COUNT) with 512%nat in Hk.
      simpl in Hk. lia.
  - intros k Hk. unfold iteration, malloc.
    destruct (a k) as [c |] eqn:Ea; [| destruct (Halloc k Hk Ea)].
    exists c. repeat split.
Qed.

Lemma run_completes_when_malloc_succeeds_witness :
  snd (exports_c_api1_run (fun _ => Some (fun _ => 0))) = returned 0.
Proof.
  rewrite (proj1 (run_completes_when_malloc_succeeds
                    (fun _ => Some (fun _ => 0))
                    (fun k _ H => ltac:(discriminate H)))).
  reflexivity.
Defined.

Lemma first_failing_allocation (a : allocator) (n : nat) :
  (forall k : nat, (k < n)%nat -> a k <> None)
  \/ exists k : nat,
       (k < n)%nat /\ a k = None
       /\ forall j : nat, (j < k)%nat -> a j <> None.
Proof.
  induction n as [| n IH].
  - left. intros k Hk. lia.
  - destruct IH as [Hall | (k & Hk & Hnone & Hbefore)].
    + destruct (a n) as [c |] eqn:Ea.
      * left. intros k Hk.
        destruct (Nat.eq_dec k n) as [-> | Hne].
        -- rewrite Ea. discriminate.
        -- apply Hall. lia.
      * right. exists n. split; [lia |]. split; [exact Ea |].
        intros j Hj. apply Hall. exact Hj.
    + right. exists k. split; [lia |]. auto.
Qed.

Lemma iterate_until_failure (a : allocator) (k todo : nat) (i : Z)
    (log : list event) :
  0 <= i ->
  (k < todo)%nat ->
  a (Z.to_nat i + k)%nat = None ->
  (forall j : nat, (j < k)%nat -> a (Z.to_nat i + j)%nat <> None) ->
  iterate a todo i log
  = (log ++ flat_map (iteration a) (seq (Z.to_nat i) (S k)),
     crashed null_dereference).
Proof.
  revert todo i log. induction k as [| k IH];
    intros [| todo] i log Hi Hk Hnone Hbefore; try lia.
  - rewrite Nat.add_0_r in Hnone.
    cbn [iterate seq flat_map]. unfold malloc, iteration.
    rewrite Hnone. cbn. rewrite ?app_nil_r. reflexivity.
  - cbn [iterate]. unfold malloc.
    destruct (a (Z.to_nat i)) as [c |] eqn:Ea.
    + cbn [option_map load size bytes].
      change ((0 <=? 0) && (0 <? PAGE_SIZE)) with true.
      change ((0 <=? PAGE_SIZE - 1) && (PAGE_SIZE - 1 <? PAGE_SIZE))
        with true.
      cbv iota. rewrite IH.
      * replace (Z.to_nat (i + 1)) with (S (Z.to_nat i)) by lia.
        change (seq (Z.to_nat i) (S (S k)))
          with (Z.to_nat i :: seq (S (Z.to_nat i)) (S k)).
        cbn [flat_map].
        assert (Hit : iteration a (Z.to_nat i)
                      = [ called_malloc PAGE_SIZE; printed_first i (c 0);
                          printed_last i (c (PAGE_SIZE - 1));
                          called_usleep 5 ]).
        { unfold iteration. rewrite Ea, Z2Nat.id by exact Hi. reflexivity. }
        rewrite Hit, <- !app_assoc. reflexivity.
      * lia.
      * lia.
      * replace (Z.to_nat (i + 1) + k)%nat with (Z.to_nat i + S k)%nat by lia.
        exact Hnone.
      * intros j Hj.
        replace (Z.to_nat (i + 1) + j)%nat with (Z.to_nat i + S j)%nat by lia.
        apply Hbefore. lia.
    + destruct (Hbefore 0%nat); [lia |].
      rewrite Nat.add_0_r. exact Ea.
Qed.

(** X10: [run] either finds all 512 allocations succeeding and returns 0
    after 512 full iterations, or stops at the first allocation that
    fails, say the one of iteration [k]: it has then gone through [k]
    full iterations and one more [malloc], and reads through [NULL].  It
    never reads outside a block it was given. *)
Theorem run_ends_at_first_failed_allocation (a : allocator) :
  ((forall k : nat, (k < 512)%nat -> a k <> None)
   /\ exports_c_api1_run a
      = (flat_map (iteration a) (seq 0 512), returned 0))
  \/ (exists k : nat,
         (k < 512)%nat /\ a k = None
         /\ (forall j : nat, (j < k)%nat -> a j <> None)
         /\ exports_c_api1_run a
            = (flat_map (iteration a) (seq 0 k) ++ [called_malloc PAGE_SIZE],
               crashed null_dereference)).
Proof.
  destruct (first_failing_allocation a 512) as [Hall | (k & Hk & Hnone & Hb)].
  - left. split; [exact Hall |].
    unfold exports_c_api1_run. rewrite iterate_all_allocated.
    + reflexivity.
    + lia.
    + intros j Hj. apply Hall.
      change (Z.to_nat COUNT) with 512%nat in Hj. simpl in Hj. lia.
  - right. exists k. repeat split; try assumption.
    unfold exports_c_api1_run.
    rewrite (iterate_until_failure a k).
    + change (Z.to_nat 0) with 0%nat. rewrite seq_S, flat_map_app.
      cbn [flat_map app Nat.add].
      assert (Hit : iteration a k = [called_malloc PAGE_SIZE])
        by (unfold iteration; rewrite Hnone; reflexivity).
      rewrite Hit, app_nil_r. reflexivity.
    + lia.
    + exact Hk.
    + exact Hnone.
    + exact Hb.
Qed.

Lemma run_ends_at_first_failed_allocation_witness :
  snd (exports_c_api1_run (exhausted_after 100)) = crashed null_dereference.
Proof.
  destruct (run_ends_at_first_failed_allocation (exhausted_after 100))
    as [[Hall _] | (k & _ & _ & _ & ->)].
  - destruct (Hall 100%nat); [lia | reflexivity].
  - reflexivity.
Defined.

End LargeDynamicMemoryProperties.

(** ** The print fixture *)

Section TestComponentC1Properties.

Import TestComponentC1.

Lemma strncpy_reads (n : nat) (dst : buffer) (src : nat -> Z) (i : nat)
    (rs : list nat) :
  exists k : nat,
    (k <= n)%nat /\ fst (strncpy dst src i n rs) = rs ++ seq i k.
Proof.
  revert dst i rs. induction n as [| n IH]; intros dst i rs.
  - exists 0%nat. simpl. rewrite app_nil_r. auto.
  - cbn [strncpy]. destruct (store dst i (src i)) as [f | dst'].
    + exists 1%nat. split; [lia | reflexivity].
    + destruct (src i =? 0).
      * exists 1%nat. split; [lia | reflexivity].
      * destruct (IH dst' (S i) (rs ++ [i])) as (k & Hk & ->).
        exists (S k). split; [lia |].
        rewrite <- app_assoc. reflexivity.
Qed.

Lemma print_reads_strncpy (s : c_api1_string_t) (found : option (nat -> Z))
    (tm_year : Z) :
  reads (exports_c_api1_print s found tm_year) = []
  \/ exists buf,
       reads (exports_c_api1_print s found tm_year)
       = fst (strncpy buf (ptr s) 0 (len s) []).
Proof.
  unfold exports_c_api1_print.
  destruct (memset_zero _ _) as [f | buf]; [left; reflexivity |].
  right. exists buf.
  destruct (strncpy buf (ptr s) 0 (len s) []) as [rs [f | [l |]]];
    try reflexivity.
  destruct (c_string l); reflexivity.
Qed.

(** C7: whatever bytes lie at [s->ptr], with or without a NUL among the
    first [s->len] of them, [print] reads from [s->ptr] only offsets
    [0], [1], ... below [s->len], each at most once: at most [s->len]
    bytes and none past the length given. *)
Theorem print_reads_within_length (s : c_api1_string_t)
    (found : option (nat -> Z)) (tm_year : Z) :
  (exists k : nat,
      (k <= len s)%nat
      /\ reads (exports_c_api1_print s found tm_year) = seq 0 k)
  /\ Forall (fun off => (off < len s)%nat)
       (reads (exports_c_api1_print s found tm_year))
  /\ (List.length (reads (exports_c_api1_print s found tm_year))
      <= len s)%nat.
Proof.
  assert (H : exists k : nat,
             (k <= len s)%nat
             /\ reads (exports_c_api1_print s found tm_year) = seq 0 k).
  { destruct (print_reads_strncpy s found tm_year) as [-> | (buf & ->)].
    - exists 0%nat. split; [lia | reflexivity].
    - destruct (strncpy_reads (len s) buf (ptr s) 0 []) as (k & Hk & ->).
      exists k. auto. }
  split; [exact H |].
  destruct H as (k & Hk & ->). split.
  - apply Forall_forall. intros off Hin. apply in_seq in Hin. lia.
  - rewrite length_seq. exact Hk.
Qed.

(** A string of two bytes followed in memory by bytes that are not NUL:
    both bytes are read, the third is not, and the two are printed. *)
Example print_unterminated :
  exports_c_api1_print {| ptr := fun _ => 104; len := 2 |}
    (Some (fun _ => 7)) 126
  = {| reads := [0; 1]%nat; printed := inr ([104; 104], 2026) |}.
Proof. vm_compute. reflexivity. Qed.

Lemma store_list_at_end (done rest : list Z) (old v : Z) :
  store_list (done ++ old :: rest) (List.length done) v
  = Some (done ++ v :: rest).
Proof.
  induction done as [| d done IH]; [reflexivity |].
  cbn [app List.length store_list]. rewrite IH. reflexivity.
Qed.

Lemma pad_over_zeros (n m : nat) (done : list Z) :
  (n <= m)%nat ->
  pad (Some (done ++ repeat 0 m)) (List.length done) n
  = inr (Some (done ++ repeat 0 m)).
Proof.
  revert m done. induction n as [| n IH]; intros m done Hn; [reflexivity |].
  destruct m as [| m]; [lia |].
  cbn [pad repeat store]. rewrite store_list_at_end.
  replace (S (List.length done)) with (List.length (done ++ [0]))
    by (rewrite length_app; simpl; lia).
  replace (done ++ 0 :: repeat 0 m) with ((done ++ [0]) ++ repeat 0 m)
    by (rewrite <- app_assoc; reflexivity).
  apply IH. lia.
Qed.

Lemma until_nul_length (l : list Z) :
  (List.length (until_nul l) <= List.length l)%nat.
Proof.
  induction l as [| c l IH]; simpl; [lia |].
  destruct (c =? 0); simpl; lia.
Qed.

Lemma c_string_until_nul (l : list Z) (m : nat) :
  c_string (until_nul l ++ repeat 0 (S m)) = Some (until_nul l).
Proof.
  induction l as [| c l IH]; [reflexivity |].
  cbn [until_nul]. destruct (c =? 0) eqn:Ec; [reflexivity |].
  cbn [app c_string]. rewrite Ec, IH. reflexivity.
Qed.

(** [strncpy] into a buffer zeroed from offset [i] on: the bytes before
    the first NUL are copied, the rest stays zero, and the source is
    read up to and including its first NUL only. *)
Lemma strncpy_into_zeros (n : nat) (src : nat -> Z) (done : list Z)
    (rs : list nat) :
  let i := List.length done in
  let text := until_nul (map src (seq i n)) in
  strncpy (Some (done ++ repeat 0 (S n))) src i n rs
  = (rs ++ seq i (Nat.min n (S (List.length text))),
     inr (Some (done ++ text ++ repeat 0 (S n - List.length text)))).
Proof.
  revert done rs. induction n as [| n IH]; intros done rs; cbn zeta.
  - cbn. rewrite app_nil_r. reflexivity.
  - cbn [strncpy store]. cbn [repeat]. rewrite store_list_at_end.
    cbn [seq map until_nul].
    destruct (src (List.length done) =? 0) eqn:Ec.
    + apply Z.eqb_eq in Ec. rewrite Ec.
      cbn [List.length app Nat.min seq]. rewrite Nat.min_0_r, Nat.sub_0_r.
      cbn [seq repeat].
      replace (done ++ 0 :: 0 :: repeat 0 n)
        with ((done ++ [0]) ++ repeat 0 (S n))
        by (rewrite <- app_assoc; reflexivity).
      replace (S (List.length done)) with (List.length (done ++ [0]))
        by (rewrite length_app; simpl; lia).
      rewrite pad_over_zeros by lia. reflexivity.
    + replace (done ++ src (List.length done) :: 0 :: repeat 0 n)
        with ((done ++ [src (List.length done)]) ++ repeat 0 (S n))
        by (rewrite <- app_assoc; reflexivity).
      replace (S (List.length done))
        with (List.length (done ++ [src (List.length done)]))
        by (rewrite length_app; simpl; lia).
      pose proof (IH (done ++ [src (List.length done)])
                    (rs ++ [List.length done])) as H.
      cbn zeta in H. rewrite H. clear H.
      rewrite length_app. cbn [List.length].
      replace (List.length done + 1)%nat with (S (List.length done)) by lia.
      rewrite <- !app_assoc. cbn [app seq Nat.min Nat.sub List.length].
      reflexivity.
Qed.

(** X11: when the allocation succeeds and [s->len + 1] does not wrap,
    [print] prints the bytes of [s] before its first NUL, all [s->len]
    of them when there is none, followed by [tm_year + 1900]; it reads
    [s->ptr] up to and including the first NUL only. *)
Theorem print_prints_the_string (s : c_api1_string_t) (found : nat -> Z)
    (tm_year : Z)
    (Hlen : Z.of_nat (len s) + 1 < SIZE_MODULUS) :
  let text := until_nul (map (ptr s) (seq 0 (len s))) in
  exports_c_api1_print s (Some found) tm_year
  = {| reads := seq 0 (Nat.min (len s) (S (List.length text)));
       printed := inr (text, tm_year + 1900) |}.
Proof.
  cbn zeta. unfold exports_c_api1_print.
  rewrite Z.mod_small by lia.
  replace (Z.to_nat (Z.of_nat (len s) + 1)) with (S (len s)) by lia.
  unfold malloc, memset_zero. cbn [option_map].
  rewrite length_map, length_seq, Nat.leb_refl.
  rewrite skipn_all2 by (rewrite length_map, length_seq; lia).
  rewrite app_nil_r.
  pose proof (strncpy_into_zeros (len s) (ptr s) [] []) as H.
  cbn zeta in H. cbn [List.length app] in H. rewrite H.
  pose proof (until_nul_length (map (ptr s) (seq 0 (len s)))) as Hle.
  rewrite length_map, length_seq in Hle.
  replace (S (len s) - List.length (until_nul (map (ptr s) (seq 0 (len s)))))%nat
    with (S (len s - List.length (until_nul (map (ptr s) (seq 0 (len s))))))
    by lia.
  rewrite c_string_until_nul. reflexivity.
Qed.

Lemma print_prints_the_string_witness :
  exports_c_api1_print {| ptr := fun i => if Nat.eqb i 1 then 0 else 104;
                          len := 4 |} (Some (fun _ => 7)) 126
  = {| reads := [0; 1]%nat; printed := inr ([104], 2026) |}.
Proof.
  apply (print_prints_the_string
           {| ptr := fun i => if Nat.eqb i 1 then 0 else 104; len := 4 |}
           (fun _ => 7) 126).
  unfold SIZE_MODULUS. simpl. lia.
Defined.

(** X12: when the allocation fails, [print] passes [NULL] to [memset]
    and faults there, before reading any byte of [s] and without
    printing. *)
Theorem print_faults_when_malloc_fails (s : c_api1_string_t) (tm_year : Z)
    (Hlen : Z.of_nat (len s) + 1 < SIZE_MODULUS) :
  exports_c_api1_print s None tm_year
  = {| reads := []; printed := inl null_dereference |}.
Proof.
  unfold exports_c_api1_print.
  rewrite Z.mod_small by lia.
  replace (Z.to_nat (Z.of_nat (len s) + 1)) with (S (len s)) by lia.
  reflexivity.
Qed.

Lemma print_faults_when_malloc_fails_witness :
  exports_c_api1_print {| ptr := fun _ => 104; len := 2 |} None 126
  = {| reads := []; printed := inl null_dereference |}.
Proof.
  apply (print_faults_when_malloc_fails {| ptr := fun _ => 104; len := 2 |}).
  unfold SIZE_MODULUS. simpl. lia.
Defined.

End TestComponentC1Properties.
